(** * task1.py: Field, Name, Phone, Record and AddressBook

    A shallow embedding of the contact directory of [task1.py] and the
    properties its specification states about it.

    Python values are modelled as follows.
    - A [str] is the list of its Unicode code points, so that [len] is the
      length of the list and [==] is equality of lists.
    - [Field] objects ([Name], [Phone]) carry the identity Python gives
      every object ([oid], what [id()] and [is] observe) next to their
      [value] attribute: [list.remove] and [list.index] compare the
      [Phone] objects of a record by identity, since no class of the
      program defines [__eq__].
    - [Record] and [AddressBook] objects are mutable and shared by
      reference: they live in a store, and a method takes the reference
      [self].
    - A method is a computation in a state and exception monad over the
      store; a raised exception keeps the store as it is at the [raise]. *)

From Stdlib Require Import NArith Ascii String.
From stdpp Require Import base option list countable gmap fin_maps.

Local Open Scope N_scope.

(** ** Strings *)

(** A Python [str]: its code points. *)
Definition str : Type := list N.

(** The code points of a literal, written in this file in UTF-8. *)
Fixpoint utf8_decode (bs : list N) : str :=
  match bs with
  | [] => []
  | b0 :: r0 =>
      if b0 <? 128 then b0 :: utf8_decode r0
      else if b0 <? 224 then
        match r0 with
        | b1 :: r1 => (b0 mod 32 * 64 + b1 mod 64) :: utf8_decode r1
        | [] => []
        end
      else if b0 <? 240 then
        match r0 with
        | b1 :: b2 :: r2 =>
            (b0 mod 16 * 4096 + b1 mod 64 * 64 + b2 mod 64) :: utf8_decode r2
        | _ => []
        end
      else
        match r0 with
        | b1 :: b2 :: b3 :: r3 =>
            (b0 mod 8 * 262144 + b1 mod 64 * 4096 + b2 mod 64 * 64 + b3 mod 64)
              :: utf8_decode r3
        | _ => []
        end
  end.

Definition lit (s : string) : str :=
  utf8_decode (map N_of_ascii (list_ascii_of_string s)).
Arguments lit : simpl never.

(** [sep.join(items)] *)
Fixpoint join (sep : str) (items : list str) : str :=
  match items with
  | [] => []
  | [x] => x
  | x :: rest => x ++ sep ++ join sep rest
  end.

(** [needle in haystack] for strings. *)
Definition contains (haystack needle : str) : Prop :=
  exists before after : str, haystack = before ++ needle ++ after.

(** The digits [0]..[9] of ASCII. *)
Definition ascii_digit (c : N) : bool := (48 <=? c) && (c <=? 57).

(** [inside lo hi c]: the code point [c] lies in the block [lo..hi]. *)
Definition inside (lo hi c : N) : bool := (lo <=? c) && (c <=? hi).

(** A part of the table [str.isdigit] reads, the code points whose Unicode
    Numeric_Type is Decimal or Digit: every block listed here is in it.
    The properties below are proved for every table; this one serves to
    run the program on concrete strings. *)
Definition unicode_digit (c : N) : bool :=
  existsb (fun b : N * N => inside b.1 b.2 c)
    [ (0x30, 0x39);       (* DIGIT ZERO .. DIGIT NINE *)
      (0xB2, 0xB3);       (* SUPERSCRIPT TWO, THREE *)
      (0xB9, 0xB9);       (* SUPERSCRIPT ONE *)
      (0x660, 0x669);     (* ARABIC-INDIC DIGITS *)
      (0x6F0, 0x6F9);     (* EXTENDED ARABIC-INDIC DIGITS *)
      (0x7C0, 0x7C9);     (* NKO DIGITS *)
      (0x966, 0x96F);     (* DEVANAGARI DIGITS *)
      (0x9E6, 0x9EF);     (* BENGALI DIGITS *)
      (0xA66, 0xA6F);     (* GURMUKHI DIGITS *)
      (0xAE6, 0xAEF);     (* GUJARATI DIGITS *)
      (0xB66, 0xB6F);     (* ORIYA DIGITS *)
      (0xBE6, 0xBEF);     (* TAMIL DIGITS *)
      (0xC66, 0xC6F);     (* TELUGU DIGITS *)
      (0xCE6, 0xCEF);     (* KANNADA DIGITS *)
      (0xD66, 0xD6F);     (* MALAYALAM DIGITS *)
      (0xE50, 0xE59);     (* THAI DIGITS *)
      (0xED0, 0xED9);     (* LAO DIGITS *)
      (0xF20, 0xF29);     (* TIBETAN DIGITS *)
      (0x1040, 0x1049);   (* MYANMAR DIGITS *)
      (0x17E0, 0x17E9);   (* KHMER DIGITS *)
      (0x1810, 0x1819);   (* MONGOLIAN DIGITS *)
      (0x2070, 0x2070);   (* SUPERSCRIPT ZERO *)
      (0x2074, 0x2079);   (* SUPERSCRIPT FOUR .. NINE *)
      (0x2080, 0x2089);   (* SUBSCRIPT ZERO .. NINE *)
      (0xFF10, 0xFF19) ]. (* FULLWIDTH DIGITS *)

(** ** Exceptions and the method monad *)

Inductive exn : Type :=
| ValueError (msg : str)   (* [raise ValueError(msg)] of task1.py *)
| NotInList                (* the ValueError of [list.remove] and [list.index] *)
| IndexError               (* list assignment index out of range *)
| AttributeError.          (* [self] is not an object of the method's class *)

Inductive outcome (A : Type) : Type :=
| Ok (a : A)
| Raise (e : exn).
Arguments Ok {A} a.
Arguments Raise {A} e.

(** [Field]: the object's identity and its [value] attribute. *)
Record Field : Type := { oid : nat; value : str }.

(** [Record]: [self.name] and [self.phones]. *)
Record RecordObj : Type := { name : Field; phones : list Field }.

(** [AddressBook(UserDict)]: [self.data], from names to [Record] objects. *)
Record AddressBook : Type := { data : gmap str nat }.

(** The store: the next fresh identity, and the live [Record] and
    [AddressBook] objects by reference. *)
Record World : Type := {
  next_id : nat;
  records : gmap nat RecordObj;
  books : gmap nat AddressBook
}.

Definition init_world : World :=
  {| next_id := 0%nat; records := ∅; books := ∅ |}.

Definition M (A : Type) : Type := World -> outcome A * World.

Definition ret {A} (a : A) : M A := fun w => (Ok a, w).

Definition raise {A} (e : exn) : M A := fun w => (Raise e, w).

Definition bind {A B} (m : M A) (k : A -> M B) : M B :=
  fun w =>
    match m w with
    | (Ok a, w') => k a w'
    | (Raise e, w') => (Raise e, w')
    end.

Notation "x <- m ;; k" := (bind m (fun x => k))
  (at level 100, m at next level, right associativity,
   format "'[v' x  <-  m  ;; '/' k ']'").
Notation "m ;;; k" := (bind m (fun _ => k))
  (at level 100, right associativity).

(** A new object: its identity is distinct from every earlier one. *)
Definition new_object : M nat :=
  fun w =>
    (Ok (next_id w),
     {| next_id := S (next_id w); records := records w; books := books w |}).

Definition get_record (self : nat) : M RecordObj :=
  fun w =>
    match records w !! self with
    | Some r => (Ok r, w)
    | None => (Raise AttributeError, w)
    end.

Definition put_record (self : nat) (r : RecordObj) : M unit :=
  fun w =>
    (Ok tt,
     {| next_id := next_id w;
        records := <[self := r]> (records w);
        books := books w |}).

Definition get_book (self : nat) : M AddressBook :=
  fun w =>
    match books w !! self with
    | Some b => (Ok b, w)
    | None => (Raise AttributeError, w)
    end.

Definition put_book (self : nat) (b : AddressBook) : M unit :=
  fun w =>
    (Ok tt,
     {| next_id := next_id w;
        records := records w;
        books := <[self := b]> (books w) |}).

(** ** Field, Name, Phone *)

Section Directory.

(** [isdigit_char c]: the character [c] has Numeric_Type Decimal or Digit
    in the Unicode database of the interpreter. *)
Variable isdigit_char : N -> bool.

(** [str.isdigit]: at least one character, and all of them digits. *)
Definition isdigit (s : str) : bool :=
  match s with
  | [] => false
  | _ => forallb isdigit_char s
  end.

Definition invalid_format_message : str :=
  lit "Невірний формат номера телефону. Очікується 10 цифр.".

(** [Field(value)]: a new object, whose [__init__] sets [self.value]. *)
Definition Field_init (value : str) : M Field :=
  i <- new_object ;;
  ret {| oid := i; value := value |}.

(** [Field.__str__] *)
Definition Field_str (self : Field) : str := value self.

(** [class Name(Field): pass] *)
Definition Name_init (value : str) : M Field := Field_init value.

(** [Phone._is_valid] *)
Definition _is_valid (value : str) : bool :=
  isdigit value && (length value =? 10)%nat.

(** [Phone(value)]: [Phone.__init__] raises before [Field.__init__] runs
    when [value] is not valid. *)
Definition Phone_init (value : str) : M Field :=
  if negb (_is_valid value)
  then raise (ValueError invalid_format_message)
  else Field_init value.

(** ** Record *)

(** [x is y]; for [Field] objects [x == y] is the same test. *)
Definition same_object (x y : Field) : bool := bool_decide (oid x = oid y).

(** [l.remove(x)]: without the first item equal to [x]; [None] stands for
    the ValueError raised when there is none. *)
Fixpoint list_remove (x : Field) (l : list Field) : option (list Field) :=
  match l with
  | [] => None
  | y :: rest =>
      if same_object y x then Some rest
      else cons y <$> list_remove x rest
  end.

(** [l.index(x)]: the position of the first item equal to [x]. *)
Fixpoint list_index (x : Field) (l : list Field) : option nat :=
  match l with
  | [] => None
  | y :: rest =>
      if same_object y x then Some 0%nat
      else S <$> list_index x rest
  end.

(** [l[i] = x]; [None] stands for the IndexError out of range. *)
Definition list_setitem (i : nat) (x : Field) (l : list Field)
  : option (list Field) :=
  if (i <? length l)%nat then Some (<[i := x]> l) else None.

(** [Record.__init__] *)
Definition Record_init (name : str) : M nat :=
  self <- new_object ;;
  n <- Name_init name ;;
  put_record self {| name := n; phones := [] |} ;;;
  ret self.

(** [Record.add_phone] *)
Definition add_phone (self : nat) (phone : str) : M unit :=
  r <- get_record self ;;
  ph <- Phone_init phone ;;
  put_record self {| name := name r; phones := phones r ++ [ph] |}.

(** The loop of [Record.find_phone]. *)
Fixpoint find_phone_in (l : list Field) (phone : str) : option Field :=
  match l with
  | [] => None
  | ph :: rest =>
      if bool_decide (value ph = phone) then Some ph
      else find_phone_in rest phone
  end.

(** [Record.find_phone]; the result [None] is Python's [None]. *)
Definition find_phone (self : nat) (phone : str) : M (option Field) :=
  r <- get_record self ;;
  ret (find_phone_in (phones r) phone).

(** [Record.remove_phone]; a [Phone] object is true in [if phone_obj:]. *)
Definition remove_phone (self : nat) (phone : str) : M unit :=
  phone_obj <- find_phone self phone ;;
  match phone_obj with
  | Some x =>
      r <- get_record self ;;
      match list_remove x (phones r) with
      | Some l => put_record self {| name := name r; phones := l |}
      | None => raise NotInList
      end
  | None => ret tt
  end.

Definition not_found_message (old_phone contact : str) : str :=
  lit "Номер " ++ old_phone ++ lit " не знайдено у контакті " ++ contact
    ++ lit ".".

(** [Record.edit_phone] *)
Definition edit_phone (self : nat) (old_phone new_phone : str) : M unit :=
  phone_obj <- find_phone self old_phone ;;
  match phone_obj with
  | None =>
      r <- get_record self ;;
      raise (ValueError (not_found_message old_phone (value (name r))))
  | Some x =>
      new_phone_obj <- Phone_init new_phone ;;
      r <- get_record self ;;
      match list_index x (phones r) with
      | None => raise NotInList
      | Some index =>
          match list_setitem index new_phone_obj (phones r) with
          | Some l => put_record self {| name := name r; phones := l |}
          | None => raise IndexError
          end
      end
  end.

Definition no_phones : str := lit "немає номерів".

(** The text [Record.__str__] builds from the attributes of [self]. *)
Definition render (r : RecordObj) : str :=
  let phones_str :=
    match phones r with
    | [] => no_phones
    | _ => join (lit "; ") (map value (phones r))
    end in
  lit "Contact name: " ++ value (name r) ++ lit ", phones: " ++ phones_str.

(** [Record.__str__] *)
Definition Record_str (self : nat) : M str :=
  r <- get_record self ;;
  ret (render r).

(** ** AddressBook *)

(** [AddressBook()]: [UserDict.__init__] with no argument. *)
Definition AddressBook_init : M nat :=
  self <- new_object ;;
  put_book self {| data := ∅ |} ;;;
  ret self.

(** [AddressBook.add_record] *)
Definition add_record (self record : nat) : M unit :=
  b <- get_book self ;;
  r <- get_record record ;;
  put_book self {| data := <[value (name r) := record]> (data b) |}.

(** [AddressBook.find] *)
Definition find (self : nat) (name : str) : M (option nat) :=
  b <- get_book self ;;
  ret (data b !! name).

(** [AddressBook.delete] *)
Definition delete (self : nat) (name : str) : M unit :=
  b <- get_book self ;;
  if bool_decide (is_Some (data b !! name))
  then put_book self {| data := base.delete name (data b) |}
  else ret tt.

(** ** Vocabulary of the specification *)

(** [first_at l p i]: position [i] holds the first phone of [l] whose
    value is [p]. *)
Definition first_at (l : list Field) (p : str) (i : nat) : Prop :=
  (exists ph, l !! i = Some ph /\ value ph = p) /\
  forall j x, (j < i)%nat -> l !! j = Some x -> value x <> p.

(** One object has one value: items of equal identity are the same item.
    Every Python list is so; the model also has lists that are not. *)
Definition coherent (l : list Field) : Prop :=
  forall x y, x ∈ l -> y ∈ l -> oid x = oid y -> x = y.

(** The phone validation rule, character by character. *)
Definition ten_digits (s : str) : Prop :=
  Forall (fun c => isdigit_char c = true) s /\ length s = 10%nat.

(** Exactly ten ASCII digits. *)
Definition ascii_ten_digits (s : str) : Prop :=
  Forall (fun c => ascii_digit c = true) s /\ length s = 10%nat.

(** The name of the record [self] refers to, if it is live. *)
Definition name_of (w : World) (self : nat) : option Field :=
  name <$> records w !! self.

(** [book.data.get(key)] for the book [self] refers to. *)
Definition entry (w : World) (self : nat) (key : str) : option nat :=
  match books w !! self with
  | Some bk => data bk !! key
  | None => None
  end.

(** Every key of every book is the name of the record stored under it. *)
Definition keys_are_names (w : World) : Prop :=
  forall self bk key ref,
    books w !! self = Some bk -> data bk !! key = Some ref ->
    exists r, records w !! ref = Some r /\ value (name r) = key.

(** Every phone of every record passes [Phone._is_valid]. *)
Definition phones_valid (w : World) : Prop :=
  forall self r, records w !! self = Some r ->
    Forall (fun ph => _is_valid (value ph) = true) (phones r).

(** ** Programs over the public interface *)

Inductive call : Type :=
| MkRecord (name : str)
| AddPhone (self : nat) (phone : str)
| FindPhone (self : nat) (phone : str)
| RemovePhone (self : nat) (phone : str)
| EditPhone (self : nat) (old_phone new_phone : str)
| Str (self : nat)
| MkAddressBook
| AddRecord (self record : nat)
| Find (self : nat) (name : str)
| Delete (self : nat) (name : str).

(** The store after a call, whether it returned or raised. *)
Definition exec (c : call) (w : World) : World :=
  match c with
  | MkRecord n => (Record_init n w).2
  | AddPhone self p => (add_phone self p w).2
  | FindPhone self p => (find_phone self p w).2
  | RemovePhone self p => (remove_phone self p w).2
  | EditPhone self o n => (edit_phone self o n w).2
  | Str self => (Record_str self w).2
  | MkAddressBook => (AddressBook_init w).2
  | AddRecord self r => (add_record self r w).2
  | Find self n => (find self n w).2
  | Delete self n => (delete self n w).2
  end.

(** The stores a program reaches from the empty one. *)
Inductive reachable : World -> Prop :=
| reachable_init : reachable init_world
| reachable_step (c : call) (w : World) :
    reachable w -> reachable (exec c w).

(** What one call can do to the store: nothing; rebind the phone list of
    a live record to some of its old items, or to them and one new valid
    phone; create a record without phones; rebind the mapping of a live
    book to some of its old entries and entries filed under the name of
    their record; create an empty book. *)
Inductive effect (w : World) : World -> Prop :=
| effect_none : effect w w
| effect_fewer_phones (self : nat) (r : RecordObj) (l' : list Field) :
    records w !! self = Some r ->
    (forall ph, ph ∈ l' -> ph ∈ phones r) ->
    effect w {| next_id := next_id w;
                records := <[self := {| name := name r; phones := l' |}]>
                             (records w);
                books := books w |}
| effect_new_phone (self : nat) (r : RecordObj) (l' : list Field) (p : str) :
    records w !! self = Some r ->
    _is_valid p = true ->
    (forall ph, ph ∈ l' ->
       ph ∈ phones r \/ ph = {| oid := next_id w; value := p |}) ->
    effect w {| next_id := S (next_id w);
                records := <[self := {| name := name r; phones := l' |}]>
                             (records w);
                books := books w |}
| effect_new_record (n : str) :
    effect w {| next_id := S (S (next_id w));
                records :=
                  <[next_id w :=
                      {| name := {| oid := S (next_id w); value := n |};
                         phones := [] |}]> (records w);
                books := books w |}
| effect_entries (self : nat) (bk : AddressBook) (d' : gmap str nat) :
    books w !! self = Some bk ->
    (forall key ref, d' !! key = Some ref ->
       data bk !! key = Some ref \/
       exists r, records w !! ref = Some r /\ value (name r) = key) ->
    effect w {| next_id := next_id w;
                records := records w;
                books := <[self := {| data := d' |}]> (books w) |}
| effect_new_book :
    effect w {| next_id := S (next_id w);
                records := records w;
                books := <[next_id w := {| data := ∅ |}]> (books w) |}.

(** The texts [Record.__str__] puts around the name and the phones. *)
Definition fixed_text : str :=
  lit "Contact name: " ++ lit ", phones: " ++ lit "; " ++ no_phones.

(** Every record of the store has a coherent phone list. *)
Definition all_coherent (w : World) : Prop :=
  forall self r, records w !! self = Some r -> coherent (phones r).

(** Identities in use are below the next fresh one. *)
Definition allocated (w : World) : Prop :=
  forall self r, records w !! self = Some r ->
    (self < next_id w)%nat /\
    Forall (fun ph => (oid ph < next_id w)%nat) (phones r).

(** The characters at which [str.splitlines] ends a line: line feed,
    vertical tab, form feed, carriage return, the file, group and record
    separators, NEXT LINE, LINE SEPARATOR and PARAGRAPH SEPARATOR. *)
Definition line_breaks : list N :=
  [0x0A; 0x0B; 0x0C; 0x0D; 0x1C; 0x1D; 0x1E; 0x85; 0x2028; 0x2029].

Definition line_break (c : N) : Prop := c ∈ line_breaks.

(** The number of phones of [l] whose value is [p]. *)
Definition occurrences (p : str) (l : list Field) : nat :=
  length (filter (fun ph => value ph = p) l).

(** References of books in use are below the next fresh identity. *)
Definition books_allocated (w : World) : Prop :=
  forall self bk, books w !! self = Some bk -> (self < next_id w)%nat.

(** A string of ASCII characters. *)
Definition ascii_str (s : str) : Prop := Forall (fun c => c < 128) s.

End Directory.

(** ** Concrete strings and stores *)

(** The string of the ten ARABIC-INDIC DIGITs ONE .. NINE, ZERO,
    ["\u0661\u0662\u0663\u0664\u0665\u0666\u0667\u0668\u0669\u0660"]. *)
Definition arabic_indic_phone : str :=
  [0x661; 0x662; 0x663; 0x664; 0x665; 0x666; 0x667; 0x668; 0x669; 0x660].

(** The store after [john = Record("John")],
    [john.add_phone("1234567890")], [john.add_phone("5555555555")],
    [book = AddressBook()], [book.add_record(john)]. *)
Definition john_calls : list call :=
  [ MkRecord (lit "John");
    AddPhone 0 (lit "1234567890");
    AddPhone 0 (lit "5555555555");
    MkAddressBook;
    AddRecord 4 0 ].

Definition run_calls (cs : list call) (w : World) : World :=
  fold_left (fun w c => exec unicode_digit c w) cs w.

Definition john_world : World := run_calls john_calls init_world.

Definition john : RecordObj :=
  {| name := {| oid := 1; value := lit "John" |};
     phones := [ {| oid := 2; value := lit "1234567890" |};
                 {| oid := 3; value := lit "5555555555" |} ] |}.

Definition john_book : AddressBook := {| data := {[ lit "John" := 0%nat ]} |}.

(** The name ["J\nD"], of two lines, and the store after
    [Record("J\nD")]. *)
Definition two_line_name : str := [74; 10; 68].

Definition two_line_world : World :=
  run_calls [ MkRecord two_line_name ] init_world.

(** ** Properties, for every table of digits *)

Section Properties.

Variable isdigit_char : N -> bool.

Local Abbreviation isdigit := (isdigit isdigit_char).
Local Abbreviation _is_valid := (_is_valid isdigit_char).
Local Abbreviation Phone_init := (Phone_init isdigit_char).
Local Abbreviation add_phone := (add_phone isdigit_char).
Local Abbreviation edit_phone := (edit_phone isdigit_char).
Local Abbreviation ten_digits := (ten_digits isdigit_char).
Local Abbreviation phones_valid := (phones_valid isdigit_char).
Local Abbreviation exec := (exec isdigit_char).
Local Abbreviation reachable := (reachable isdigit_char).
Local Abbreviation effect := (effect isdigit_char).
Local Abbreviation effect_none := (effect_none isdigit_char).
Local Abbreviation effect_fewer_phones := (effect_fewer_phones isdigit_char).
Local Abbreviation effect_new_phone := (effect_new_phone isdigit_char).
Local Abbreviation effect_new_record := (effect_new_record isdigit_char).
Local Abbreviation effect_entries := (effect_entries isdigit_char).
Local Abbreviation effect_new_book := (effect_new_book isdigit_char).

(** ** Lemmas on lists of phones *)

Lemma first_at_here (y : Field) (rest : list Field) :
  first_at (y :: rest) (value y) 0.
Proof.
  split; [by exists y|]. intros j x Hj. lia.
Qed.

Lemma first_at_later (y : Field) (rest : list Field) (p : str) (i : nat) :
  value y <> p -> first_at rest p i -> first_at (y :: rest) p (S i).
Proof.
  intros Hy [Hi Hlt]. split; [exact Hi|].
  intros [|j] x Hj; cbn; [by intros [= <-]|].
  apply Hlt. lia.
Qed.

Lemma first_at_cons_inv (y : Field) (rest : list Field) (p : str) (i : nat) :
  first_at (y :: rest) p i ->
  (i = 0%nat /\ value y = p) \/
  (exists i', i = S i' /\ value y <> p /\ first_at rest p i').
Proof.
  intros [(ph & Hi & Hv) Hlt]. destruct i as [|i'].
  - left. by injection Hi as ->.
  - right. exists i'. split; [done|]. split.
    + apply (Hlt 0%nat y); [lia|done].
    + split; [by exists ph|]. intros j x Hj Hx.
      apply (Hlt (S j) x); [lia|done].
Qed.

Lemma first_at_unique (l : list Field) (p : str) (i j : nat) :
  first_at l p i -> first_at l p j -> i = j.
Proof.
  intros [(x & Hx & Hvx) Hi] [(y & Hy & Hvy) Hj].
  destruct (lt_eq_lt_dec i j) as [[Hlt| ->]|Hlt]; [|done|].
  - by destruct (Hj i x Hlt Hx).
  - by destruct (Hi j y Hlt Hy).
Qed.

Lemma find_phone_in_Some (l : list Field) (p : str) (ph : Field) :
  find_phone_in l p = Some ph <->
  exists i, l !! i = Some ph /\ first_at l p i.
Proof.
  revert ph. induction l as [|y rest IH]; intros ph; cbn.
  - split; [discriminate|]. by intros (i & Hi & _).
  - case_bool_decide as Hy.
    + split.
      * intros [= <-]. exists 0%nat. split; [done|]. subst p. apply first_at_here.
      * intros (i & Hi & Hf).
        destruct (first_at_cons_inv _ _ _ _ Hf) as [[-> _]|(i' & _ & Hne & _)];
          [by injection Hi as ->|done].
    + rewrite IH. split.
      * intros (i & Hi & Hf). exists (S i). split; [done|].
        by apply first_at_later.
      * intros (i & Hi & Hf).
        destruct (first_at_cons_inv _ _ _ _ Hf) as [[_ Hv]|(i' & -> & _ & Hf')];
          [done|]. by exists i'.
Qed.

Lemma find_phone_in_None (l : list Field) (p : str) :
  find_phone_in l p = None <-> forall ph, ph ∈ l -> value ph <> p.
Proof.
  induction l as [|y rest IH]; cbn.
  - split; [|done]. intros _ ph Hph. by apply elem_of_nil in Hph.
  - case_bool_decide as Hy.
    + split; [discriminate|]. intros H. destruct (H y); [left|done].
    + rewrite IH. split.
      * intros H ph [->|Hph]%elem_of_cons; auto.
      * intros H ph Hph. apply H. by right.
Qed.

Lemma find_phone_in_present (l : list Field) (p : str) :
  (exists ph, ph ∈ l /\ value ph = p) ->
  exists x, find_phone_in l p = Some x.
Proof.
  intros (ph & Hph & Hv).
  destruct (find_phone_in l p) as [x|] eqn:Hf; [by exists x|].
  rewrite find_phone_in_None in Hf. by destruct (Hf ph Hph).
Qed.

Lemma coherent_tail (y : Field) (rest : list Field) :
  coherent (y :: rest) -> coherent rest.
Proof.
  intros Hc a b Ha Hb. apply Hc; by right.
Qed.

(** Searching by identity for the item that the search by value found
    stops at the same position. *)
Lemma list_index_first (l : list Field) (p : str) (i : nat) (x : Field) :
  coherent l -> l !! i = Some x -> first_at l p i ->
  list_index x l = Some i.
Proof.
  revert i. induction l as [|y rest IH]; intros i Hc Hi Hf; [done|].
  cbn. unfold same_object.
  destruct (first_at_cons_inv _ _ _ _ Hf) as [[-> _]|(i' & -> & Hne & Hf')].
  - injection Hi as ->. by rewrite bool_decide_eq_true_2.
  - change (rest !! i' = Some x) in Hi. rewrite bool_decide_eq_false_2.
    + rewrite (IH i'); [done|by eapply coherent_tail|done|done].
    + intros Hid. apply Hne.
      assert (y = x) as ->.
      { apply Hc; [left|right; by eapply list_elem_of_lookup_2|done]. }
      destruct Hf' as [(x' & Hx' & Hv) _].
      rewrite Hi in Hx'. by injection Hx' as <-.
Qed.

Lemma list_remove_first (l : list Field) (p : str) (i : nat) (x : Field) :
  coherent l -> l !! i = Some x -> first_at l p i ->
  list_remove x l = Some (base.delete i l).
Proof.
  revert i. induction l as [|y rest IH]; intros i Hc Hi Hf; [done|].
  cbn. unfold same_object.
  destruct (first_at_cons_inv _ _ _ _ Hf) as [[-> _]|(i' & -> & Hne & Hf')].
  - injection Hi as ->. by rewrite bool_decide_eq_true_2.
  - change (rest !! i' = Some x) in Hi. rewrite bool_decide_eq_false_2.
    + rewrite (IH i'); [done|by eapply coherent_tail|done|done].
    + intros Hid. apply Hne.
      assert (y = x) as ->.
      { apply Hc; [left|right; by eapply list_elem_of_lookup_2|done]. }
      destruct Hf' as [(x' & Hx' & Hv) _].
      rewrite Hi in Hx'. by injection Hx' as <-.
Qed.

(** An item of the list is found by identity, whatever the list. *)
Lemma list_index_elem (l : list Field) (x : Field) :
  x ∈ l -> exists i, list_index x l = Some i /\ (i < length l)%nat.
Proof.
  induction l as [|y rest IH]; [by intros ?%elem_of_nil|].
  intros Hx. cbn. unfold same_object. case_bool_decide as Hid.
  - exists 0%nat. split; [done|]. cbn. lia.
  - apply elem_of_cons in Hx as [->|Hx]; [done|].
    destruct (IH Hx) as (i & -> & Hlt). exists (S i). split; [done|]. cbn. lia.
Qed.

Lemma list_remove_elem (l : list Field) (x : Field) :
  x ∈ l -> exists l', list_remove x l = Some l'.
Proof.
  induction l as [|y rest IH]; [by intros ?%elem_of_nil|].
  intros Hx. cbn. unfold same_object. case_bool_decide as Hid.
  - by exists rest.
  - apply elem_of_cons in Hx as [->|Hx]; [done|].
    destruct (IH Hx) as (l' & ->). by exists (y :: l').
Qed.

(** [l.remove(x)] keeps items of [l] only. *)
Lemma list_remove_sub (l l' : list Field) (x : Field) :
  list_remove x l = Some l' -> forall y, y ∈ l' -> y ∈ l.
Proof.
  revert l'. induction l as [|z rest IH]; intros l'; cbn; [discriminate|].
  destruct (same_object z x).
  - intros [= <-] y Hy. by right.
  - destruct (list_remove x rest) as [l''|]; cbn; [|discriminate].
    intros [= <-] y [->|Hy]%elem_of_cons; [left|right; eauto].
Qed.

Lemma find_phone_in_elem (l : list Field) (p : str) (x : Field) :
  find_phone_in l p = Some x -> x ∈ l /\ value x = p.
Proof.
  rewrite find_phone_in_Some. intros (i & Hi & (x' & Hx' & Hv) & _).
  split; [by eapply list_elem_of_lookup_2|congruence].
Qed.

(** ** Phone *)

Lemma _is_valid_spec (s : str) : _is_valid s = true <-> ten_digits s.
Proof.
  unfold _is_valid, ten_digits, isdigit.
  rewrite andb_true_iff, Nat.eqb_eq, Forall_forall.
  destruct s as [|c s]; [cbn; intuition discriminate|].
  rewrite forallb_forall.
  split; intros [H Hlen]; (split; [|done]); intros x Hx; apply H;
    by apply list_elem_of_In.
Qed.

Lemma _is_valid_false (s : str) : _is_valid s = false <-> ~ ten_digits s.
Proof.
  rewrite <- _is_valid_spec. by destruct (_is_valid s).
Qed.

Lemma Phone_init_valid (s : str) (w : World) :
  _is_valid s = true ->
  Phone_init s w =
    (Ok {| oid := next_id w; value := s |},
     {| next_id := S (next_id w); records := records w; books := books w |}).
Proof.
  intros H. unfold Phone_init. by rewrite H.
Qed.

Lemma Phone_init_invalid (s : str) (w : World) :
  _is_valid s = false ->
  Phone_init s w = (Raise (ValueError invalid_format_message), w).
Proof.
  intros H. unfold Phone_init. by rewrite H.
Qed.

(** C1, as amended: for every string [s], constructing a Phone from [s]
    succeeds if and only if every character of [s] is a digit for
    [str.isdigit] and [s] has length exactly 10, and it then stores [s]
    verbatim in a new object; on every other input, and only there, it
    raises the ValueError of an invalid format and changes nothing. *)
Theorem Phone_init_spec (s : str) (w : World) :
  (Phone_init s w =
     (Ok {| oid := next_id w; value := s |},
      {| next_id := S (next_id w); records := records w; books := books w |})
   <-> ten_digits s) /\
  (Phone_init s w = (Raise (ValueError invalid_format_message), w)
   <-> ~ ten_digits s).
Proof.
  destruct (_is_valid s) eqn:Hv.
  - rewrite (Phone_init_valid s w Hv). apply _is_valid_spec in Hv.
    split; split; done.
  - rewrite (Phone_init_invalid s w Hv). apply _is_valid_false in Hv.
    split; split; done.
Qed.

(** ** Record.edit_phone *)

Lemma lit_number : lit "Номер " = [1053; 1086; 1084; 1077; 1088; 32].
Proof. reflexivity. Qed.

Lemma not_found_is_not_invalid_format (old_phone contact : str) :
  not_found_message old_phone contact <> invalid_format_message.
Proof.
  unfold not_found_message. rewrite lit_number. by vm_compute.
Qed.

Lemma not_found_message_contains (old_phone contact : str) :
  contains (not_found_message old_phone contact) old_phone /\
  contains (not_found_message old_phone contact) contact.
Proof.
  unfold not_found_message, contains. split.
  - by eexists _, _.
  - exists (lit "Номер " ++ old_phone ++ lit " не знайдено у контакті "), (lit ".").
    by rewrite <- !app_assoc.
Qed.

(** C2: when the record holds a phone equal to [old_phone] and
    [new_phone] is not a valid phone, [edit_phone] raises the ValueError
    of an invalid format and leaves the store as it was: the phone list of
    the record is the same list, the old phone at its position. *)
Theorem edit_phone_invalid_new
    (self : nat) (r : RecordObj) (old_phone new_phone : str) (w : World) :
  records w !! self = Some r ->
  (exists ph, ph ∈ phones r /\ value ph = old_phone) ->
  ~ ten_digits new_phone ->
  edit_phone self old_phone new_phone w =
    (Raise (ValueError invalid_format_message), w) /\
  phones <$> records (edit_phone self old_phone new_phone w).2 !! self =
    Some (phones r).
Proof.
  intros Hr Hold Hnew. apply _is_valid_false in Hnew.
  destruct (find_phone_in_present _ _ Hold) as [x Hx].
  assert (edit_phone self old_phone new_phone w =
            (Raise (ValueError invalid_format_message), w)) as ->.
  { unfold edit_phone, find_phone, bind, get_record, ret. rewrite Hr, Hx.
    by rewrite (Phone_init_invalid _ _ Hnew). }
  split; [done|]. cbn. by rewrite Hr.
Qed.

(** C3: when the record holds no phone equal to [old_phone],
    [edit_phone] raises a ValueError whose message contains [old_phone]
    and the name of the contact (and is not the message of an invalid
    format), and leaves the store, hence the phone list, as it was. *)
Theorem edit_phone_not_found
    (self : nat) (r : RecordObj) (old_phone new_phone : str) (w : World) :
  records w !! self = Some r ->
  (forall ph, ph ∈ phones r -> value ph <> old_phone) ->
  exists msg,
    edit_phone self old_phone new_phone w = (Raise (ValueError msg), w) /\
    contains msg old_phone /\
    contains msg (value (name r)) /\
    msg <> invalid_format_message /\
    phones <$> records (edit_phone self old_phone new_phone w).2 !! self =
      Some (phones r).
Proof.
  intros Hr Hold. apply find_phone_in_None in Hold.
  exists (not_found_message old_phone (value (name r))).
  assert (edit_phone self old_phone new_phone w =
            (Raise (ValueError (not_found_message old_phone (value (name r)))),
             w)) as ->.
  { unfold edit_phone, find_phone, bind, get_record, ret, raise.
    by rewrite Hr, Hold, Hr. }
  split; [done|].
  destruct (not_found_message_contains old_phone (value (name r))) as [H1 H2].
  repeat split; [done|done|apply not_found_is_not_invalid_format|].
  cbn. by rewrite Hr.
Qed.

(** C4: when the record holds a phone equal to [old_phone] and
    [new_phone] is valid, [edit_phone] returns, and the phone list
    afterwards is the list before with the item at the position of the
    first phone equal to [old_phone] replaced by a phone of value
    [new_phone]: the length and every other position are as before, so a
    later duplicate of [old_phone] stays. *)
Theorem edit_phone_replaces_first
    (self : nat) (r : RecordObj) (old_phone new_phone : str) (w : World) :
  records w !! self = Some r ->
  coherent (phones r) ->
  (exists ph, ph ∈ phones r /\ value ph = old_phone) ->
  ten_digits new_phone ->
  exists (i : nat) (new_phone_obj : Field) (w' : World) (l' : list Field),
    edit_phone self old_phone new_phone w = (Ok tt, w') /\
    first_at (phones r) old_phone i /\
    value new_phone_obj = new_phone /\
    records w' !! self = Some {| name := name r; phones := l' |} /\
    l' !! i = Some new_phone_obj /\
    length l' = length (phones r) /\
    forall j, j <> i -> l' !! j = phones r !! j.
Proof.
  intros Hr Hc Hold Hnew. apply _is_valid_spec in Hnew.
  destruct (find_phone_in_present _ _ Hold) as [x Hx].
  pose proof Hx as Hx'. apply find_phone_in_Some in Hx' as (i & Hi & Hf).
  pose proof (lookup_lt_Some _ _ _ Hi) as Hlt.
  exists i, {| oid := next_id w; value := new_phone |}. eexists. eexists.
  split.
  { unfold edit_phone, find_phone, bind, get_record, ret. rewrite Hr, Hx.
    rewrite (Phone_init_valid _ _ Hnew). cbn. rewrite Hr.
    rewrite (list_index_first _ _ _ _ Hc Hi Hf). unfold list_setitem.
    apply Nat.ltb_lt in Hlt. rewrite Hlt. reflexivity. }
  split; [done|]. split; [done|]. split; [cbn; by rewrite lookup_insert_eq|].
  split; [by apply list_lookup_insert_eq|].
  split; [by apply length_insert|].
  intros j Hj. by apply list_lookup_insert_ne.
Qed.

(** ** Effects of the calls *)

Lemma exec_effect (c : call) (w : World) : effect w (exec c w).
Proof.
  destruct c as [n|self p|self p|self p|self o n|self| |self rc|self n|self n];
    cbn.
  - apply effect_new_record.
  - unfold add_phone, bind, get_record, Phone_init.
    destruct (records w !! self) as [r|] eqn:Hr; [|apply effect_none].
    destruct (_is_valid p) eqn:Hp; cbn; [|apply effect_none].
    apply (effect_new_phone w self r _ p Hr Hp).
    intros ph [Hph|Hph%list_elem_of_singleton]%elem_of_app; auto.
  - unfold find_phone, bind, get_record.
    destruct (records w !! self); apply effect_none.
  - unfold remove_phone, find_phone, bind, get_record, ret.
    destruct (records w !! self) as [r|] eqn:Hr; [|apply effect_none].
    destruct (find_phone_in (phones r) p) as [x|]; [|apply effect_none].
    rewrite Hr.
    destruct (list_remove x (phones r)) as [l'|] eqn:Hl; [|apply effect_none].
    apply (effect_fewer_phones w self r l' Hr). by eapply list_remove_sub.
  - unfold edit_phone, find_phone, bind, get_record, ret, Phone_init.
    destruct (records w !! self) as [r|] eqn:Hr; [|apply effect_none].
    destruct (find_phone_in (phones r) o) as [x|] eqn:Hx;
      [|rewrite Hr; apply effect_none].
    destruct (_is_valid n) eqn:Hn; cbn; [|apply effect_none].
    rewrite Hr.
    apply find_phone_in_elem in Hx as [Hx _].
    destruct (list_index_elem _ _ Hx) as (i & -> & Hi).
    unfold list_setitem. apply Nat.ltb_lt in Hi as Hi'. rewrite Hi'. cbn.
    apply (effect_new_phone w self r _ n Hr Hn).
    intros ph Hph. apply list_elem_of_lookup in Hph as [j Hj].
    destruct (decide (i = j)) as [->|Hne].
    + rewrite list_lookup_insert_eq in Hj by done.
      right. by injection Hj.
    + rewrite list_lookup_insert_ne in Hj by done.
      left. by eapply list_elem_of_lookup_2.
  - unfold Record_str, bind, get_record.
    destruct (records w !! self); apply effect_none.
  - apply effect_new_book.
  - unfold add_record, bind, get_book, get_record.
    destruct (books w !! self) as [bk|] eqn:Hb; [|apply effect_none].
    destruct (records w !! rc) as [r|] eqn:Hr; [|apply effect_none].
    apply (effect_entries w self bk _ Hb). intros key ref Hk.
    apply lookup_insert_Some in Hk as [[<- <-]|[_ Hk]]; eauto.
  - unfold find, bind, get_book.
    destruct (books w !! self); apply effect_none.
  - unfold delete, bind, get_book.
    destruct (books w !! self) as [bk|] eqn:Hb; [|apply effect_none].
    case_bool_decide; [|apply effect_none].
    apply (effect_entries w self bk _ Hb). intros key ref Hk.
    apply lookup_delete_Some in Hk as [_ Hk]. by left.
Qed.

(** ** Invariants of the store *)

Lemma effect_allocated (w w' : World) :
  effect w w' -> allocated w -> allocated w'.
Proof.
  intros [|self r l' Hr Hl|self r l' p Hr Hp Hl|n|self bk d' Hb Hd|] Ha;
    [done|..]; intros ref r0; cbn.
  - intros [[<- <-]|[_ Hr0]]%lookup_insert_Some; [|by apply Ha].
    destruct (Ha _ _ Hr) as [Hlt Hall]. split; [done|].
    rewrite Forall_forall in *. cbn. auto.
  - intros [[<- <-]|[_ Hr0]]%lookup_insert_Some.
    + destruct (Ha _ _ Hr) as [Hlt Hall]. split; [lia|].
      rewrite Forall_forall in *. cbn. intros ph [Hph| ->]%Hl; cbn; [|lia].
      specialize (Hall _ Hph). cbn in Hall. lia.
    + destruct (Ha _ _ Hr0) as [Hlt Hall]. split; [lia|].
      eapply Forall_impl; [exact Hall|]. cbn. intros; lia.
  - intros [[<- <-]|[_ Hr0]]%lookup_insert_Some; [split; [lia|by cbn]|].
    destruct (Ha _ _ Hr0) as [Hlt Hall]. split; [lia|].
    eapply Forall_impl; [exact Hall|]. cbn. intros; lia.
  - apply Ha.
  - intros Hr0. destruct (Ha _ _ Hr0) as [Hlt Hall]. split; [lia|].
    eapply Forall_impl; [exact Hall|]. cbn. intros; lia.
Qed.

Lemma effect_phones_valid (w w' : World) :
  effect w w' -> phones_valid w -> phones_valid w'.
Proof.
  intros [|self r l' Hr Hl|self r l' p Hr Hp Hl|n|self bk d' Hb Hd|] Hv;
    [done|..]; intros ref r0; cbn; try apply Hv.
  - intros [[<- <-]|[_ Hr0]]%lookup_insert_Some; [|by eapply Hv].
    specialize (Hv _ _ Hr). rewrite Forall_forall in *. cbn. auto.
  - intros [[<- <-]|[_ Hr0]]%lookup_insert_Some; [|by eapply Hv].
    specialize (Hv _ _ Hr). rewrite Forall_forall in *. cbn.
    intros ph [Hph| ->]%Hl; auto.
  - intros [[<- <-]|[_ Hr0]]%lookup_insert_Some; [by cbn|by eapply Hv].
Qed.

Lemma effect_all_coherent (w w' : World) :
  effect w w' -> allocated w -> all_coherent w -> all_coherent w'.
Proof.
  intros [|self r l' Hr Hl|self r l' p Hr Hp Hl|n|self bk d' Hb Hd|] Ha Hc;
    [done|..]; intros ref r0; cbn; try apply Hc.
  - intros [[<- <-]|[_ Hr0]]%lookup_insert_Some; [|by eapply Hc].
    cbn. intros x y Hx Hy. apply (Hc _ _ Hr); auto.
  - intros [[<- <-]|[_ Hr0]]%lookup_insert_Some; [|by eapply Hc].
    destruct (Ha _ _ Hr) as [_ Hall]. rewrite Forall_forall in Hall.
    cbn. intros x y [Hx| ->]%Hl [Hy| ->]%Hl; cbn; intros Hid; [|..|done].
    + by apply (Hc _ _ Hr).
    + specialize (Hall _ Hx). cbn in Hall. lia.
    + specialize (Hall _ Hy). cbn in Hall. lia.
  - intros [[<- <-]|[_ Hr0]]%lookup_insert_Some; [|by eapply Hc].
    cbn. by intros x y ?%elem_of_nil.
Qed.

Lemma effect_keys_are_names (w w' : World) :
  effect w w' -> allocated w -> keys_are_names w -> keys_are_names w'.
Proof.
  intros [|self r l' Hr Hl|self r l' p Hr Hp Hl|n|self bk d' Hb Hd|] Ha Hk;
    [done|..]; intros b bk0 key ref; cbn.
  - intros Hb0 Hkey. destruct (Hk _ _ _ _ Hb0 Hkey) as (r0 & Hr0 & Hn).
    destruct (decide (self = ref)) as [->|Hne].
    + rewrite lookup_insert_eq. eexists. split; [done|]. cbn. congruence.
    + rewrite lookup_insert_ne by done. eauto.
  - intros Hb0 Hkey. destruct (Hk _ _ _ _ Hb0 Hkey) as (r0 & Hr0 & Hn).
    destruct (decide (self = ref)) as [->|Hne].
    + rewrite lookup_insert_eq. eexists. split; [done|]. cbn. congruence.
    + rewrite lookup_insert_ne by done. eauto.
  - intros Hb0 Hkey. destruct (Hk _ _ _ _ Hb0 Hkey) as (r0 & Hr0 & Hn).
    destruct (Ha _ _ Hr0) as [Hlt _].
    rewrite lookup_insert_ne by lia. eauto.
  - intros [[<- <-]|[_ Hb0]]%lookup_insert_Some Hkey; [|by eapply Hk].
    cbn in Hkey. destruct (Hd _ _ Hkey) as [Hold|Hnew]; [|done].
    by eapply Hk.
  - intros [[<- <-]|[_ Hb0]]%lookup_insert_Some Hkey; [|by eapply Hk].
    cbn in Hkey. by rewrite lookup_empty in Hkey.
Qed.

Lemma reachable_invariants (w : World) :
  reachable w ->
  allocated w /\ phones_valid w /\ all_coherent w /\ keys_are_names w.
Proof.
  induction 1 as [|c w Hw (Ha & Hv & Hc & Hk)].
  - split; [|split; [|split]].
    + intros self r. cbn. by rewrite lookup_empty.
    + intros self r. cbn. by rewrite lookup_empty.
    + intros self r. cbn. by rewrite lookup_empty.
    + intros self bk key ref. cbn. by rewrite lookup_empty.
  - pose proof (exec_effect c w) as He.
    split; [by eapply effect_allocated|].
    split; [by eapply effect_phones_valid|].
    split; [by eapply effect_all_coherent|by eapply effect_keys_are_names].
Qed.

(** ** Record.add_phone, Record.find_phone *)

Lemma add_phone_Ok (self : nat) (p : str) (w w' : World) :
  add_phone self p w = (Ok tt, w') ->
  exists r,
    records w !! self = Some r /\ _is_valid p = true /\
    w' = {| next_id := S (next_id w);
            records :=
              <[self := {| name := name r;
                           phones := phones r
                                       ++ [{| oid := next_id w; value := p |}]
                        |}]> (records w);
            books := books w |}.
Proof.
  unfold add_phone, bind, get_record, Phone_init.
  destruct (records w !! self) as [r|]; [|discriminate].
  destruct (_is_valid p); cbn; [|discriminate].
  intros [= <-]. by exists r.
Qed.

Lemma add_phone_invalid (self : nat) (p : str) (w : World) (r : RecordObj) :
  records w !! self = Some r -> _is_valid p = false ->
  add_phone self p w = (Raise (ValueError invalid_format_message), w).
Proof.
  intros Hr Hp. unfold add_phone, bind, get_record, Phone_init.
  by rewrite Hr, Hp.
Qed.

Lemma find_phone_live (self : nat) (raw : str) (w : World) (r : RecordObj) :
  records w !! self = Some r ->
  find_phone self raw w = (Ok (find_phone_in (phones r) raw), w).
Proof.
  intros Hr. unfold find_phone, bind, get_record. by rewrite Hr.
Qed.

(** C5: a call [add_phone(p)] that returns has appended a phone of value
    [p] to the end of the phone list, and [find_phone(p)] right after it
    returns a phone of value [p]. In general [find_phone(raw)] changes
    nothing and returns the item at the first position, in list order,
    whose value is [raw], code point for code point, and [None] exactly
    when no item has that value. *)
Theorem add_phone_then_find_phone
    (self : nat) (p : str) (w w' : World)
    (self0 : nat) (r0 : RecordObj) (raw : str) (w0 : World) :
  add_phone self p w = (Ok tt, w') ->
  records w0 !! self0 = Some r0 ->
  (exists r ph,
     records w !! self = Some r /\ value ph = p /\
     records w' !! self =
       Some {| name := name r; phones := phones r ++ [ph] |}) /\
  (exists ph, find_phone self p w' = (Ok (Some ph), w') /\ value ph = p) /\
  (forall ph,
     find_phone self0 raw w0 = (Ok (Some ph), w0) <->
     exists i, phones r0 !! i = Some ph /\ first_at (phones r0) raw i) /\
  (find_phone self0 raw w0 = (Ok None, w0) <->
   forall ph, ph ∈ phones r0 -> value ph <> raw).
Proof.
  intros Hadd Hr0. apply add_phone_Ok in Hadd as (r & Hr & Hp & ->).
  split; [|split; [|split]].
  - exists r, {| oid := next_id w; value := p |}. cbn.
    by rewrite lookup_insert_eq.
  - set (l := phones r ++ [{| oid := next_id w; value := p |}]).
    destruct (find_phone_in_present l p) as [x Hx].
    { eexists. split; [apply elem_of_app; right; by left|done]. }
    exists x. erewrite find_phone_live; [|cbn; apply lookup_insert_eq].
    cbn. fold l. rewrite Hx. split; [done|].
    by apply find_phone_in_elem in Hx as [_ Hx].
  - intros ph. rewrite (find_phone_live _ _ _ _ Hr0), <- find_phone_in_Some.
    split; [by intros [= ->]|by intros ->].
  - rewrite (find_phone_live _ _ _ _ Hr0), <- find_phone_in_None.
    split; [by intros [= ->]|by intros ->].
Qed.

(** ** Record.remove_phone, AddressBook.delete *)

(** C6: deleting never raises. [remove_phone(p)] on a live record returns;
    it leaves the store as it was when no phone has value [p], and
    otherwise removes the item at the first position whose value is [p]
    and nothing else. [delete(key)] on a live book returns; it leaves the
    store as it was when [key] is absent, and otherwise removes that entry
    only, after which [find(key)] returns [None]. *)
Theorem deleting_is_total
    (self : nat) (r : RecordObj) (p : str) (w : World)
    (book : nat) (bk : AddressBook) (key : str) (w0 : World) :
  records w !! self = Some r ->
  books w0 !! book = Some bk ->
  (exists w',
     remove_phone self p w = (Ok tt, w') /\
     ((forall ph, ph ∈ phones r -> value ph <> p) -> w' = w) /\
     (coherent (phones r) ->
      forall i, first_at (phones r) p i ->
        records w' !! self =
          Some {| name := name r; phones := base.delete i (phones r) |})) /\
  (exists w0',
     delete book key w0 = (Ok tt, w0') /\
     (data bk !! key = None -> w0' = w0) /\
     (is_Some (data bk !! key) ->
      books w0' !! book = Some {| data := base.delete key (data bk) |} /\
      find book key w0' = (Ok None, w0'))).
Proof.
  intros Hr Hb. split.
  - unfold remove_phone, find_phone, bind, get_record, ret. rewrite Hr.
    destruct (find_phone_in (phones r) p) as [x|] eqn:Hx.
    + rewrite Hr. pose proof Hx as [Hin _]%find_phone_in_elem.
      destruct (list_remove_elem _ _ Hin) as [l' Hl']. rewrite Hl'.
      eexists. split; [done|]. split.
      * intros Hno. apply find_phone_in_None in Hno. congruence.
      * intros Hc i Hi. cbn. rewrite lookup_insert_eq.
        apply find_phone_in_Some in Hx as (i0 & Hi0 & Hf0).
        rewrite (first_at_unique _ _ _ _ Hi Hf0).
        rewrite (list_remove_first _ _ _ _ Hc Hi0 Hf0) in Hl'. congruence.
    + exists w. split; [done|]. split; [done|].
      intros _ i [(ph & Hph & Hv) _]. rewrite find_phone_in_None in Hx.
      destruct (Hx ph); [by eapply list_elem_of_lookup_2|done].
  - unfold delete, bind, get_book. rewrite Hb. case_bool_decide as Hk.
    + eexists. split; [done|]. split.
      * intros Hnone. rewrite Hnone in Hk. by destruct Hk.
      * intros _. cbn. rewrite lookup_insert_eq. split; [done|].
        unfold find, bind, get_book, ret. cbn. rewrite lookup_insert_eq.
        cbn. by rewrite lookup_delete_eq.
    + exists w0. split; [done|]. split; [done|]. intros Hs. by destruct Hk.
Qed.

(** ** AddressBook.add_record *)

(** C7: in every store a program of calls reaches, every key of every
    book is the value of the name of the record stored under it; and
    [add_record(record)] returns for every live book and record, binds
    the name of the record to it whatever the key was bound to before and
    changes no record, so that [find] of that name returns the record. *)
Theorem add_record_keys_are_names
    (w0 : World) (self record : nat) (bk : AddressBook) (r : RecordObj)
    (w : World) :
  reachable w0 ->
  books w !! self = Some bk ->
  records w !! record = Some r ->
  keys_are_names w0 /\
  exists w',
    add_record self record w = (Ok tt, w') /\
    books w' !! self =
      Some {| data := <[value (name r) := record]> (data bk) |} /\
    records w' = records w /\
    find self (value (name r)) w' = (Ok (Some record), w').
Proof.
  intros Hw0 Hb Hr. split; [by apply reachable_invariants|].
  unfold add_record, bind, get_book, get_record. rewrite Hb, Hr.
  eexists. split; [done|]. cbn. rewrite lookup_insert_eq.
  split; [done|]. split; [done|].
  unfold find, bind, get_book, ret. cbn. rewrite lookup_insert_eq. cbn.
  by rewrite lookup_insert_eq.
Qed.

(** ** Record.__str__ *)

Lemma fold_left_app_acc (sep a b : str) (l : list str) :
  fold_left (fun acc y => acc ++ sep ++ y) l (a ++ b) =
  a ++ fold_left (fun acc y => acc ++ sep ++ y) l b.
Proof.
  revert b. induction l as [|y l IH]; intros b; cbn; [done|].
  by rewrite <- IH, <- app_assoc.
Qed.

(** [join] puts the items in list order, the separator between them. *)
Lemma join_fold_left (sep x : str) (l : list str) :
  join sep (x :: l) = fold_left (fun acc y => acc ++ sep ++ y) l x.
Proof.
  revert x. induction l as [|y l IH]; intros x; [done|].
  change (join sep (x :: y :: l)) with (x ++ sep ++ join sep (y :: l)).
  rewrite IH. cbn [fold_left]. by rewrite !fold_left_app_acc.
Qed.

Lemma join_elem (sep : str) (l : list str) (c : N) :
  c ∈ join sep l -> c ∈ sep \/ exists x, x ∈ l /\ c ∈ x.
Proof.
  induction l as [|x l IH]; [by intros ?%elem_of_nil|].
  destruct l as [|y l].
  - intros Hc. right. exists x. split; [left|done].
  - change (join sep (x :: y :: l)) with (x ++ sep ++ join sep (y :: l)).
    intros [Hc|[Hc|Hc]%elem_of_app]%elem_of_app.
    + right. exists x. split; [left|done].
    + by left.
    + destruct (IH Hc) as [?|(z & Hz & Hcz)]; [by left|].
      right. exists z. split; [by right|done].
Qed.

Lemma fixed_text_one_line : 10 ∉ fixed_text.
Proof.
  apply (bool_decide_unpack _). by vm_compute.
Qed.

Lemma fixed_text_no_line_break (c : N) :
  c ∈ fixed_text -> ~ line_break c.
Proof.
  revert c. apply Forall_forall. apply (bool_decide_unpack _). by vm_compute.
Qed.

Lemma join_contains (sep x : str) (l : list str) (c : N) :
  x ∈ l -> c ∈ x -> c ∈ join sep l.
Proof.
  induction l as [|y l IH]; [by intros ?%elem_of_nil|].
  intros Hx Hc. destruct l as [|z l].
  - apply list_elem_of_singleton in Hx as ->. done.
  - change (join sep (y :: z :: l)) with (y ++ sep ++ join sep (z :: l)).
    rewrite !elem_of_app. apply elem_of_cons in Hx as [->|Hx]; auto.
Qed.

(** C8, as amended: [__str__] of a live record changes nothing and
    returns the text "Contact name: ", the name, ", phones: " and then,
    for a record with phones, their values in list order with "; " between
    them, or, for a record without phones, the phrase [no_phones], which
    is not the empty text an empty join would give. The text is made of
    the name, the phone values and fixed text without a line break, and
    holds the name and every phone value: it is a single line exactly
    when neither the name nor a phone value has a line break in it. *)
Theorem Record_str_format (self : nat) (r : RecordObj) (w : World) :
  records w !! self = Some r ->
  exists body text,
    text = lit "Contact name: " ++ value (name r) ++ lit ", phones: " ++ body /\
    Record_str self w = (Ok text, w) /\
    (phones r = [] ->
     body = no_phones /\ body <> join (lit "; ") (map value (phones r))) /\
    (forall first others, phones r = first :: others ->
       body = fold_left (fun acc v => acc ++ lit "; " ++ v)
                (map value others) (value first)) /\
    (forall c,
       c ∈ text ->
       c ∈ value (name r) \/ (exists ph, ph ∈ phones r /\ c ∈ value ph) \/
       (c ∈ fixed_text /\ ~ line_break c)) /\
    (forall c,
       c ∈ value (name r) \/ (exists ph, ph ∈ phones r /\ c ∈ value ph) ->
       c ∈ text) /\
    ((exists c, line_break c /\ c ∈ text) <->
     (exists c, line_break c /\
        (c ∈ value (name r) \/ exists ph, ph ∈ phones r /\ c ∈ value ph))).
Proof.
  intros Hr.
  set (body := match phones r with
               | [] => no_phones
               | _ => join (lit "; ") (map value (phones r))
               end).
  set (text := lit "Contact name: " ++ value (name r) ++ lit ", phones: "
                 ++ body).
  assert (forall c,
            c ∈ text ->
            c ∈ value (name r) \/ (exists ph, ph ∈ phones r /\ c ∈ value ph) \/
            (c ∈ fixed_text /\ ~ line_break c)) as Hfrom.
  { assert (forall c, c ∈ fixed_text -> c ∈ fixed_text /\ ~ line_break c)
      as Hfix by (intros c Hc; split; [done|by apply fixed_text_no_line_break]).
    intros c [Hc|[Hc|[Hc|Hc]%elem_of_app]%elem_of_app]%elem_of_app.
    - right; right. apply Hfix. unfold fixed_text. rewrite !elem_of_app. auto.
    - by left.
    - right; right. apply Hfix. unfold fixed_text. rewrite !elem_of_app. auto.
    - unfold body in Hc. destruct (phones r) as [|ph l] eqn:Hl.
      + right; right. apply Hfix. unfold fixed_text. rewrite !elem_of_app.
        auto.
      + apply join_elem in Hc as [Hc|(x & Hx & Hcx)].
        * right; right. apply Hfix. unfold fixed_text. rewrite !elem_of_app.
          auto.
        * right; left. apply list_elem_of_fmap in Hx as (ph' & -> & Hph').
          by exists ph'. }
  assert (forall c,
            c ∈ value (name r) \/ (exists ph, ph ∈ phones r /\ c ∈ value ph) ->
            c ∈ text) as Hinto.
  { intros c [Hc|(ph & Hph & Hc)]; unfold text; rewrite !elem_of_app; [auto|].
    right; right; right. unfold body.
    destruct (phones r) as [|ph0 l] eqn:Hl; [by apply elem_of_nil in Hph|].
    apply (join_contains _ (value ph)); [|done].
    change (map value (ph0 :: l)) with (value <$> ph0 :: l).
    by apply list_elem_of_fmap_2. }
  exists body, text. split; [done|].
  split; [unfold Record_str, bind, get_record; by rewrite Hr|].
  split; [unfold body; intros ->; by split|].
  split; [unfold body; intros first others ->; apply join_fold_left|].
  split; [done|]. split; [done|]. split.
  - intros (c & Hbreak & Hc). exists c. split; [done|].
    destruct (Hfrom c Hc) as [?|[?|[_ Hno]]]; auto. by destruct Hno.
  - intros (c & Hbreak & Hc). exists c. auto.
Qed.

(** ** The phones of a record are valid *)

Lemma exec_phones_valid (c : call) (w : World) :
  phones_valid w -> phones_valid (exec c w).
Proof.
  apply effect_phones_valid, exec_effect.
Qed.

(** C9: in every store a program of calls reaches (constructing records
    and books, [add_phone], [remove_phone], [edit_phone] and the other
    methods, in any order and whether they return or raise), every phone
    of every record consists of exactly 10 digit characters, and every
    further call keeps it so. *)
Theorem phones_always_valid (w : World) (self : nat) (r : RecordObj) :
  reachable w ->
  records w !! self = Some r ->
  Forall (fun ph => ten_digits (value ph)) (phones r) /\
  forall c, phones_valid (exec c w).
Proof.
  intros Hw Hr. destruct (reachable_invariants w Hw) as (_ & Hv & _).
  split; [|intros c; by apply exec_phones_valid].
  eapply Forall_impl; [exact (Hv _ _ Hr)|].
  intros ph. apply _is_valid_spec.
Qed.

(** ** Frame *)

Lemma put_phones_frame
    (w : World) (self : nat) (r : RecordObj) (l' : list Field) (n : nat) :
  records w !! self = Some r ->
  let w' := {| next_id := n;
               records := <[self := {| name := name r; phones := l' |}]>
                            (records w);
               books := books w |} in
  (forall other, name_of w' other = name_of w other) /\
  (forall other, other <> self -> records w' !! other = records w !! other) /\
  books w' = books w.
Proof.
  intros Hr w'. split; [|split; [|done]].
  - intros other. unfold name_of, w'. cbn.
    destruct (decide (self = other)) as [<-|Hne].
    + by rewrite lookup_insert_eq, Hr.
    + by rewrite lookup_insert_ne.
  - intros other Hne. unfold w'. cbn. by rewrite lookup_insert_ne.
Qed.

Lemma add_phone_frame (self : nat) (p : str) (w : World) :
  let w' := (add_phone self p w).2 in
  (forall other, name_of w' other = name_of w other) /\
  (forall other, other <> self -> records w' !! other = records w !! other) /\
  books w' = books w.
Proof.
  unfold add_phone, bind, get_record, Phone_init.
  destruct (records w !! self) as [r|] eqn:Hr; [|done].
  destruct (_is_valid p); cbn; [|done].
  by apply put_phones_frame.
Qed.

Lemma remove_phone_frame (self : nat) (p : str) (w : World) :
  let w' := (remove_phone self p w).2 in
  (forall other, name_of w' other = name_of w other) /\
  (forall other, other <> self -> records w' !! other = records w !! other) /\
  books w' = books w.
Proof.
  unfold remove_phone, find_phone, bind, get_record, ret.
  destruct (records w !! self) as [r|] eqn:Hr; [|done].
  destruct (find_phone_in (phones r) p) as [x|]; [|done].
  rewrite Hr. destruct (list_remove x (phones r)); [|done].
  by apply put_phones_frame.
Qed.

Lemma edit_phone_frame (self : nat) (o n : str) (w : World) :
  let w' := (edit_phone self o n w).2 in
  (forall other, name_of w' other = name_of w other) /\
  (forall other, other <> self -> records w' !! other = records w !! other) /\
  books w' = books w.
Proof.
  unfold edit_phone, find_phone, bind, get_record, ret, Phone_init.
  destruct (records w !! self) as [r|] eqn:Hr; [|done].
  destruct (find_phone_in (phones r) o) as [x|]; [|by rewrite Hr].
  destruct (_is_valid n); cbn; [|done].
  rewrite Hr. destruct (list_index x (phones r)) as [i|]; [|done].
  destruct (list_setitem i _ (phones r)) as [l|]; [|done].
  exact (put_phones_frame w self r l _ Hr).
Qed.

(** C10: [add_phone], [remove_phone] and [edit_phone] never change the
    name of a record, nor any other record, nor any book, whether they
    return or raise; [add_record] leaves every entry of every book whose
    key is not the name of the added record as it was, [delete(n)] every
    entry whose key is not [n], and neither changes a record. *)
Theorem frame_properties
    (self : nat) (p old_phone new_phone : str) (w : World)
    (book record : nat) (n key : str) (w0 : World) :
  value <$> name_of w0 record <> Some key ->
  n <> key ->
  (forall w',
     w' ∈ [ (add_phone self p w).2; (remove_phone self p w).2;
            (edit_phone self old_phone new_phone w).2 ] ->
     (forall other, name_of w' other = name_of w other) /\
     (forall other, other <> self ->
        records w' !! other = records w !! other) /\
     books w' = books w) /\
  (forall b, entry (add_record book record w0).2 b key = entry w0 b key) /\
  records (add_record book record w0).2 = records w0 /\
  (forall b, entry (delete book n w0).2 b key = entry w0 b key) /\
  records (delete book n w0).2 = records w0.
Proof.
  intros Hname Hn. split; [|split; [|split; [|split]]].
  - intros w' Hw'. repeat apply elem_of_cons in Hw' as [->|Hw'].
    + apply add_phone_frame.
    + apply remove_phone_frame.
    + apply edit_phone_frame.
    + by apply elem_of_nil in Hw'.
  - intros b. unfold add_record, bind, get_book, get_record.
    destruct (books w0 !! book) as [bk|] eqn:Hb; [|done].
    unfold name_of in Hname.
    destruct (records w0 !! record) as [r|] eqn:Hr; [|done].
    unfold entry. cbn. destruct (decide (book = b)) as [<-|Hne].
    + rewrite lookup_insert_eq, Hb. cbn. rewrite lookup_insert_ne; [done|].
      intros Heq. apply Hname. cbn. by rewrite Heq.
    + by rewrite lookup_insert_ne.
  - unfold add_record, bind, get_book, get_record.
    destruct (books w0 !! book); [|done]. by destruct (records w0 !! record).
  - intros b. unfold delete, bind, get_book.
    destruct (books w0 !! book) as [bk|] eqn:Hb; [|done].
    case_bool_decide; [|done].
    unfold entry. cbn. destruct (decide (book = b)) as [<-|Hne].
    + rewrite lookup_insert_eq, Hb. cbn. by rewrite lookup_delete_ne.
    + by rewrite lookup_insert_ne.
  - unfold delete, bind, get_book.
    destruct (books w0 !! book); [|done]. by case_bool_decide.
Qed.

(** Ten ASCII digits are a phone, for a table that has the ASCII
    digits. *)
Lemma Phone_init_ascii (s : str) (w : World) :
  (forall c, ascii_digit c = true -> isdigit_char c = true) ->
  ascii_ten_digits s ->
  Phone_init s w =
    (Ok {| oid := next_id w; value := s |},
     {| next_id := S (next_id w); records := records w; books := books w |}).
Proof.
  intros Htable [Hs Hlen]. apply Phone_init_valid, _is_valid_spec.
  split; [|done]. eapply Forall_impl; [exact Hs|]. apply Htable.
Qed.

Lemma NoDup_oid_coherent (l : list Field) : NoDup (oid <$> l) -> coherent l.
Proof.
  intros Hnd x y Hx Hy Hid.
  apply list_elem_of_lookup in Hx as [i Hi].
  apply list_elem_of_lookup in Hy as [j Hj].
  assert (i = j) as ->; [|congruence].
  eapply NoDup_lookup; [exact Hnd| |].
  - rewrite list_lookup_fmap, Hi. reflexivity.
  - rewrite list_lookup_fmap, Hj. cbn. by rewrite Hid.
Qed.

(** ** How the methods run *)

Lemma Record_init_run (n : str) (w : World) :
  Record_init n w =
    (Ok (next_id w),
     {| next_id := S (S (next_id w));
        records :=
          <[next_id w := {| name := {| oid := S (next_id w); value := n |};
                            phones := [] |}]> (records w);
        books := books w |}).
Proof. reflexivity. Qed.

Lemma add_phone_run (self : nat) (r : RecordObj) (p : str) (w : World) :
  records w !! self = Some r -> _is_valid p = true ->
  add_phone self p w =
    (Ok tt,
     {| next_id := S (next_id w);
        records :=
          <[self := {| name := name r;
                       phones := phones r
                                   ++ [{| oid := next_id w; value := p |}] |}]>
            (records w);
        books := books w |}).
Proof.
  intros Hr Hp. unfold add_phone, bind, get_record, Phone_init.
  by rewrite Hr, Hp.
Qed.

Lemma remove_phone_absent (self : nat) (r : RecordObj) (p : str) (w : World) :
  records w !! self = Some r -> find_phone_in (phones r) p = None ->
  remove_phone self p w = (Ok tt, w).
Proof.
  intros Hr Hp. unfold remove_phone, find_phone, bind, get_record, ret.
  by rewrite Hr, Hp.
Qed.

Lemma remove_phone_run
    (self : nat) (r : RecordObj) (p : str) (i : nat) (w : World) :
  records w !! self = Some r -> coherent (phones r) ->
  first_at (phones r) p i ->
  remove_phone self p w =
    (Ok tt,
     {| next_id := next_id w;
        records :=
          <[self := {| name := name r;
                       phones := base.delete i (phones r) |}]> (records w);
        books := books w |}).
Proof.
  intros Hr Hc Hi. pose proof Hi as [(x & Hx & _) _].
  unfold remove_phone, find_phone, bind, get_record, ret. rewrite Hr.
  rewrite (proj2 (find_phone_in_Some _ _ x)) by eauto.
  by rewrite Hr, (list_remove_first _ _ _ _ Hc Hx Hi).
Qed.

Lemma edit_phone_run
    (self : nat) (r : RecordObj) (o n : str) (i : nat) (w : World) :
  records w !! self = Some r -> coherent (phones r) ->
  first_at (phones r) o i -> _is_valid n = true ->
  edit_phone self o n w =
    (Ok tt,
     {| next_id := S (next_id w);
        records :=
          <[self := {| name := name r;
                       phones := <[i := {| oid := next_id w; value := n |}]>
                                   (phones r) |}]> (records w);
        books := books w |}).
Proof.
  intros Hr Hc Hi Hn. pose proof Hi as [(x & Hx & _) _].
  pose proof (lookup_lt_Some _ _ _ Hx) as Hlt. apply Nat.ltb_lt in Hlt.
  unfold edit_phone, find_phone, bind, get_record, ret. rewrite Hr.
  rewrite (proj2 (find_phone_in_Some _ _ x)) by eauto.
  rewrite (Phone_init_valid _ _ Hn). cbn. rewrite Hr.
  rewrite (list_index_first _ _ _ _ Hc Hx Hi). unfold list_setitem.
  by rewrite Hlt.
Qed.

Lemma edit_phone_absent
    (self : nat) (r : RecordObj) (o n : str) (w : World) :
  records w !! self = Some r -> find_phone_in (phones r) o = None ->
  edit_phone self o n w =
    (Raise (ValueError (not_found_message o (value (name r)))), w).
Proof.
  intros Hr Ho. unfold edit_phone, find_phone, bind, get_record, ret, raise.
  by rewrite Hr, Ho, Hr.
Qed.

Lemma first_at_present (l : list Field) (p : str) :
  (exists ph, ph ∈ l /\ value ph = p) -> exists i, first_at l p i.
Proof.
  intros [x Hx]%find_phone_in_present.
  apply find_phone_in_Some in Hx as (i & _ & Hi). by exists i.
Qed.

(** ** Counting phones *)

Lemma occurrences_cons (q : str) (y : Field) (l : list Field) :
  occurrences q (y :: l) =
    ((if decide (value y = q) then 1 else 0) + occurrences q l)%nat.
Proof.
  unfold occurrences. rewrite filter_cons. by destruct (decide (value y = q)).
Qed.

Lemma occurrences_app (q : str) (l1 l2 : list Field) :
  occurrences q (l1 ++ l2) = (occurrences q l1 + occurrences q l2)%nat.
Proof.
  unfold occurrences. by rewrite filter_app, length_app.
Qed.

Lemma occurrences_zero (q : str) (l : list Field) :
  occurrences q l = 0%nat <-> find_phone_in l q = None.
Proof.
  induction l as [|y l IH]; [done|].
  rewrite occurrences_cons. cbn. case_bool_decide as Hy.
  - rewrite decide_True by done. split; [lia|discriminate].
  - rewrite decide_False by done. by rewrite <- IH.
Qed.

Lemma occurrences_insert
    (q : str) (l : list Field) (i : nat) (x y : Field) :
  l !! i = Some y ->
  (occurrences q (<[i := x]> l) + (if decide (value y = q) then 1 else 0)
   = occurrences q l + (if decide (value x = q) then 1 else 0))%nat.
Proof.
  revert i. induction l as [|z l IH]; intros [|i] Hi; try done.
  - injection Hi as ->. cbn [insert list_insert]. rewrite !occurrences_cons. lia.
  - change (<[S i := x]> (z :: l)) with (z :: <[i := x]> l).
    rewrite !occurrences_cons. specialize (IH i Hi). lia.
Qed.

Lemma occurrences_delete (q : str) (l : list Field) (i : nat) (y : Field) :
  l !! i = Some y ->
  (occurrences q (base.delete i l) + (if decide (value y = q) then 1 else 0)
   = occurrences q l)%nat.
Proof.
  revert i. induction l as [|z l IH]; intros [|i] Hi; try done.
  - injection Hi as ->. change (base.delete 0%nat (y :: l)) with l.
    rewrite occurrences_cons. lia.
  - change (base.delete (S i) (z :: l)) with (z :: base.delete i l).
    rewrite !occurrences_cons. specialize (IH i Hi). lia.
Qed.

(** ** Constructing records and adding phones *)

Lemma effect_books_allocated (w w' : World) :
  effect w w' -> books_allocated w -> books_allocated w'.
Proof.
  intros [|self r l' Hr Hl|self r l' p Hr Hp Hl|n|self bk d' Hb Hd|] Ha;
    [done|..]; intros b bk0; cbn.
  - apply Ha.
  - intros Hb. specialize (Ha _ _ Hb). lia.
  - intros Hb. specialize (Ha _ _ Hb). lia.
  - intros [[<- <-]|[_ Hb0]]%lookup_insert_Some; [by eapply Ha|by eapply Ha].
  - intros [[<- <-]|[_ Hb0]]%lookup_insert_Some; [lia|].
    specialize (Ha _ _ Hb0). lia.
Qed.

Lemma reachable_books_allocated (w : World) :
  reachable w -> books_allocated w.
Proof.
  induction 1 as [|c w Hw IH].
  - intros b bk. cbn. by rewrite lookup_empty.
  - eapply effect_books_allocated; [apply exec_effect|done].
Qed.

Lemma reachable_fresh (w : World) :
  reachable w ->
  records w !! next_id w = None /\ books w !! next_id w = None.
Proof.
  intros Hw. destruct (reachable_invariants w Hw) as (Ha & _).
  pose proof (reachable_books_allocated w Hw) as Hb. split.
  - destruct (records w !! next_id w) as [r|] eqn:Hr; [|done].
    destruct (Ha _ _ Hr). lia.
  - destruct (books w !! next_id w) as [bk|] eqn:Hbk; [|done].
    specialize (Hb _ _ Hbk). lia.
Qed.

(** X1: [Record(name)] returns for every string, the empty one too; in
    a store a program reaches it returns a reference that was neither a
    record nor a book, of a record that has the name verbatim and no
    phones, described with the phrase for no phones; every record there
    was is as before, and so is every book. *)
Theorem Record_init_fresh (n : str) (w : World) :
  reachable w ->
  exists w',
    Record_init n w = (Ok (next_id w), w') /\
    records w !! next_id w = None /\
    books w !! next_id w = None /\
    records w' !! next_id w =
      Some {| name := {| oid := S (next_id w); value := n |};
              phones := [] |} /\
    (forall other r,
       records w !! other = Some r -> records w' !! other = Some r) /\
    books w' = books w /\
    Record_str (next_id w) w' =
      (Ok (lit "Contact name: " ++ n ++ lit ", phones: " ++ no_phones), w').
Proof.
  intros Hw. destruct (reachable_fresh w Hw) as [Hr Hb].
  eexists. split; [apply Record_init_run|].
  split; [done|]. split; [done|]. cbn.
  split; [by rewrite lookup_insert_eq|].
  split; [|split; [done|]].
  - intros other r Ho. rewrite lookup_insert_ne; [done|]. congruence.
  - unfold Record_str, bind, get_record. cbn. by rewrite lookup_insert_eq.
Qed.

(** X2: on a live record [add_phone(p)] raises exactly when [p] is not a
    valid phone; the exception is the ValueError of an invalid format and
    the store, identities included, is as before. It returns exactly when
    [p] is valid. *)
Theorem add_phone_raises_iff_invalid
    (self : nat) (r : RecordObj) (p : str) (w : World) :
  records w !! self = Some r ->
  (add_phone self p w = (Raise (ValueError invalid_format_message), w)
   <-> ~ ten_digits p) /\
  ((exists w', add_phone self p w = (Ok tt, w')) <-> ten_digits p).
Proof.
  intros Hr. destruct (_is_valid p) eqn:Hp.
  - rewrite (add_phone_run _ _ _ _ Hr Hp). apply _is_valid_spec in Hp.
    split; split; try done. eauto.
  - rewrite (add_phone_invalid _ _ _ _ Hr Hp). apply _is_valid_false in Hp.
    split; split; try done. by intros [w' Hw'].
Qed.

(** X3: [add_phone] checks no uniqueness. For a valid [p] it returns
    whether or not the record already holds [p]: the record then has one
    phone more, one more of value [p], as many of every other value, and
    its name as before. *)
Theorem add_phone_counts
    (self : nat) (r : RecordObj) (p : str) (w : World) :
  records w !! self = Some r ->
  ten_digits p ->
  exists w' r',
    add_phone self p w = (Ok tt, w') /\
    records w' !! self = Some r' /\
    name r' = name r /\
    length (phones r') = S (length (phones r)) /\
    occurrences p (phones r') = S (occurrences p (phones r)) /\
    forall q, q <> p -> occurrences q (phones r') = occurrences q (phones r).
Proof.
  intros Hr Hp. apply _is_valid_spec in Hp.
  eexists. eexists. split; [by apply add_phone_run|].
  split; [cbn; by rewrite lookup_insert_eq|].
  split; [done|]. cbn [phones].
  split; [rewrite length_app; cbn; lia|]. split.
  - rewrite occurrences_app, occurrences_cons. cbn [value].
    rewrite decide_True by done. change (occurrences p []) with 0%nat. lia.
  - intros q Hq. rewrite occurrences_app, occurrences_cons. cbn [value].
    rewrite decide_False by done. change (occurrences q []) with 0%nat. lia.
Qed.

Lemma first_at_app_l (l l2 : list Field) (p : str) (i : nat) :
  first_at l p i -> first_at (l ++ l2) p i.
Proof.
  intros [(x & Hx & Hv) Hlt]. pose proof (lookup_lt_Some _ _ _ Hx) as Hi.
  split.
  - exists x. by rewrite lookup_app_l.
  - intros j y Hj. rewrite lookup_app_l by lia. by apply Hlt.
Qed.

Lemma first_at_snoc (l : list Field) (x : Field) :
  find_phone_in l (value x) = None ->
  first_at (l ++ [x]) (value x) (length l).
Proof.
  intros Hno. rewrite find_phone_in_None in Hno. split.
  - exists x. split; [|done]. by rewrite list_lookup_middle.
  - intros j y Hj. rewrite lookup_app_l by done. intros Hy.
    apply Hno. by eapply list_elem_of_lookup_2.
Qed.

Lemma delete_app_lt (l l2 : list Field) (i : nat) :
  (i < length l)%nat -> base.delete i (l ++ l2) = base.delete i l ++ l2.
Proof.
  revert i. induction l as [|y l IH]; intros [|i] Hi; cbn in Hi; try lia.
  - done.
  - change (base.delete (S i) ((y :: l) ++ l2))
      with (y :: base.delete i (l ++ l2)).
    rewrite IH by lia. done.
Qed.

(** The phone list after [add_phone] in a reachable store is coherent. *)
Lemma add_phone_coherent (self : nat) (r : RecordObj) (p : str) (w : World) :
  reachable w -> records w !! self = Some r ->
  coherent (phones r ++ [{| oid := next_id w; value := p |}]).
Proof.
  intros Hw Hr. destruct (reachable_invariants w Hw) as (Ha & _ & Hc & _).
  destruct (Ha _ _ Hr) as [_ Hall]. rewrite Forall_forall in Hall.
  intros x y [Hx| ->%list_elem_of_singleton]%elem_of_app
             [Hy| ->%list_elem_of_singleton]%elem_of_app; cbn; intros Hid.
  - by apply (Hc _ _ Hr).
  - specialize (Hall _ Hx). cbn in Hall. lia.
  - specialize (Hall _ Hy). cbn in Hall. lia.
  - done.
Qed.

(** X4: in a store a program reaches, [add_phone(p)] with a valid [p]
    and then [remove_phone(p)] both return. When the record did not hold
    [p], the phone list, and every record of the store, is then as before
    the two calls. When it did, the two calls do not cancel: the older
    phone of value [p], at its first position, is the one removed, and the
    new one stays at the end. *)
Theorem add_phone_then_remove_phone
    (self : nat) (r : RecordObj) (p : str) (w : World) :
  reachable w ->
  records w !! self = Some r ->
  ten_digits p ->
  exists (w1 w2 : World) (ph : Field) (l2 : list Field),
    add_phone self p w = (Ok tt, w1) /\
    remove_phone self p w1 = (Ok tt, w2) /\
    value ph = p /\
    records w2 !! self = Some {| name := name r; phones := l2 |} /\
    ((forall x, x ∈ phones r -> value x <> p) ->
     l2 = phones r /\ records w2 = records w) /\
    (forall i, first_at (phones r) p i ->
       l2 = base.delete i (phones r) ++ [ph]).
Proof.
  intros Hw Hr Hp. apply _is_valid_spec in Hp.
  set (x := {| oid := next_id w; value := p |}).
  pose proof (add_phone_coherent self r p w Hw Hr) as Hc. fold x in Hc.
  set (w1 := {| next_id := S (next_id w);
                records := <[self := {| name := name r;
                                        phones := phones r ++ [x] |}]>
                             (records w);
                books := books w |}).
  assert (records w1 !! self =
            Some {| name := name r; phones := phones r ++ [x] |}) as Hr1.
  { cbn. by rewrite lookup_insert_eq. }
  destruct (find_phone_in (phones r) p) as [y|] eqn:Hfind.
  - apply find_phone_in_Some in Hfind as (i & Hy & Hi).
    pose proof (lookup_lt_Some _ _ _ Hy) as Hlt.
    exists w1. eexists. exists x. eexists.
    split; [by apply add_phone_run|].
    split; [apply (remove_phone_run self _ p i w1 Hr1 Hc);
            by apply first_at_app_l|].
    split; [done|]. cbn. split; [by rewrite lookup_insert_eq|]. split.
    + intros Hno. destruct (Hno y); [by eapply list_elem_of_lookup_2|].
      by destruct Hi as [(y' & Hy' & Hv) _]; simplify_eq.
    + intros j Hj. rewrite (first_at_unique _ _ _ _ Hj Hi).
      by apply delete_app_lt.
  - exists w1. eexists. exists x. eexists.
    split; [by apply add_phone_run|].
    split; [apply (remove_phone_run self _ p (length (phones r)) w1 Hr1 Hc);
            by apply (first_at_snoc (phones r) x)|].
    split; [done|]. cbn. split; [by rewrite lookup_insert_eq|]. split.
    + intros _. rewrite delete_middle, app_nil_r. split; [done|].
      rewrite insert_insert_eq. apply insert_id. by destruct r.
    + intros i [(y & Hy & Hv) _]. rewrite find_phone_in_None in Hfind.
      destruct (Hfind y); [by eapply list_elem_of_lookup_2|done].
Qed.

(** ** Editing and removing phones *)

Lemma elem_of_insert_inv (l : list Field) (i : nat) (x y : Field) :
  y ∈ <[i := x]> l -> y ∈ l \/ y = x.
Proof.
  intros [j Hj]%list_elem_of_lookup.
  destruct (decide (i = j)) as [->|Hne].
  - pose proof (lookup_lt_Some _ _ _ Hj) as Hlt. rewrite length_insert in Hlt.
    rewrite list_lookup_insert_eq in Hj by done. right. by injection Hj.
  - rewrite list_lookup_insert_ne in Hj by done.
    left. by eapply list_elem_of_lookup_2.
Qed.

(** The phone list after [edit_phone] in a reachable store is coherent. *)
Lemma edit_phone_coherent
    (self : nat) (r : RecordObj) (n : str) (i : nat) (w : World) :
  reachable w -> records w !! self = Some r ->
  coherent (<[i := {| oid := next_id w; value := n |}]> (phones r)).
Proof.
  intros Hw Hr. destruct (reachable_invariants w Hw) as (Ha & _ & Hc & _).
  destruct (Ha _ _ Hr) as [_ Hall]. rewrite Forall_forall in Hall.
  intros x y [Hx| ->]%elem_of_insert_inv [Hy| ->]%elem_of_insert_inv; cbn;
    intros Hid.
  - by apply (Hc _ _ Hr).
  - specialize (Hall _ Hx). cbn in Hall. lia.
  - specialize (Hall _ Hy). cbn in Hall. lia.
  - done.
Qed.

Lemma reachable_present_valid
    (self : nat) (r : RecordObj) (p : str) (w : World) :
  reachable w -> records w !! self = Some r ->
  (exists ph, ph ∈ phones r /\ value ph = p) -> _is_valid p = true.
Proof.
  intros Hw Hr (ph & Hph & <-).
  destruct (reachable_invariants w Hw) as (_ & Hv & _).
  specialize (Hv _ _ Hr). rewrite Forall_forall in Hv. by apply Hv.
Qed.

(** [__str__] reads the name and the values of the phones only. *)
Lemma render_values (r r' : RecordObj) :
  value (name r') = value (name r) ->
  value <$> phones r' = value <$> phones r ->
  render r' = render r.
Proof.
  intros Hn Hl. unfold render. rewrite Hn.
  destruct (phones r) as [|x l], (phones r') as [|x' l']; try done.
  change (map value (x' :: l')) with (value <$> x' :: l').
  change (map value (x :: l)) with (value <$> x :: l). by rewrite Hl.
Qed.

(** X5: in a store a program reaches, when the record holds [o] and
    does not hold the valid number [n], [edit_phone(o, n)] and then
    [edit_phone(n, o)] both return and bring the record back to the same
    name and the same phone values at the same positions (in new [Phone]
    objects), so that [__str__] gives the text it gave before. *)
Theorem edit_phone_and_back
    (self : nat) (r : RecordObj) (o n : str) (w : World) :
  reachable w ->
  records w !! self = Some r ->
  (exists ph, ph ∈ phones r /\ value ph = o) ->
  ten_digits n ->
  (forall ph, ph ∈ phones r -> value ph <> n) ->
  exists (w1 w2 : World) (r2 : RecordObj),
    edit_phone self o n w = (Ok tt, w1) /\
    edit_phone self n o w1 = (Ok tt, w2) /\
    records w2 !! self = Some r2 /\
    name r2 = name r /\
    value <$> phones r2 = value <$> phones r /\
    (Record_str self w2).1 = (Record_str self w).1.
Proof.
  intros Hw Hr Ho Hn Hno. apply _is_valid_spec in Hn.
  pose proof (reachable_present_valid self r o w Hw Hr Ho) as Hov.
  destruct (reachable_invariants w Hw) as (_ & _ & Hc & _).
  specialize (Hc _ _ Hr).
  destruct (first_at_present _ _ Ho) as [i Hi].
  pose proof Hi as [(y & Hy & Hvy) Hbefore].
  pose proof (lookup_lt_Some _ _ _ Hy) as Hlt.
  set (x1 := {| oid := next_id w; value := n |}).
  set (w1 := {| next_id := S (next_id w);
                records := <[self := {| name := name r;
                                        phones := <[i := x1]> (phones r) |}]>
                             (records w);
                books := books w |}).
  assert (records w1 !! self =
            Some {| name := name r; phones := <[i := x1]> (phones r) |})
    as Hr1 by (cbn; by rewrite lookup_insert_eq).
  assert (first_at (<[i := x1]> (phones r)) n i) as Hi1.
  { split.
    - exists x1. by rewrite list_lookup_insert_eq.
    - intros j z Hj. rewrite list_lookup_insert_ne by lia. intros Hz.
      apply Hno. by eapply list_elem_of_lookup_2. }
  exists w1. eexists. eexists.
  split; [by apply edit_phone_run|].
  split; [apply (edit_phone_run self _ n o i w1 Hr1); [|done|done];
          by apply (edit_phone_coherent self r n i w)|].
  cbn. rewrite lookup_insert_eq. split; [done|]. split; [done|].
  assert (value <$> <[i := {| oid := S (next_id w); value := o |}]>
                      (<[i := x1]> (phones r))
          = value <$> phones r) as Hvalues.
  { rewrite list_insert_insert_eq, list_fmap_insert. cbn.
    apply list_insert_id. by rewrite list_lookup_fmap, Hy, <- Hvy. }
  split; [done|].
  unfold Record_str, bind, get_record. cbn. rewrite lookup_insert_eq, Hr. cbn.
  f_equal. by apply render_values.
Qed.

(** X6: in a store a program reaches, a successful [edit_phone(o, n)]
    keeps the number of phones; with [o = n] it keeps every value; with
    [o <> n] the record has one phone of value [o] fewer and one of value
    [n] more and as many of every other value, so [find_phone(o)] returns
    [None] afterwards exactly when [o] occurred once. [find_phone(n)]
    returns a phone of value [n] afterwards. *)
Theorem edit_phone_counts
    (self : nat) (r : RecordObj) (o n : str) (w : World) :
  reachable w ->
  records w !! self = Some r ->
  (exists ph, ph ∈ phones r /\ value ph = o) ->
  ten_digits n ->
  exists (w' : World) (r' : RecordObj),
    edit_phone self o n w = (Ok tt, w') /\
    records w' !! self = Some r' /\
    length (phones r') = length (phones r) /\
    (o = n -> value <$> phones r' = value <$> phones r) /\
    (o <> n ->
     S (occurrences o (phones r')) = occurrences o (phones r) /\
     occurrences n (phones r') = S (occurrences n (phones r)) /\
     (forall q, q <> o -> q <> n ->
        occurrences q (phones r') = occurrences q (phones r)) /\
     (find_phone self o w' = (Ok None, w') <->
      occurrences o (phones r) = 1%nat)) /\
    exists ph, find_phone self n w' = (Ok (Some ph), w') /\ value ph = n.
Proof.
  intros Hw Hr Ho Hn. apply _is_valid_spec in Hn.
  destruct (reachable_invariants w Hw) as (_ & _ & Hc & _).
  specialize (Hc _ _ Hr).
  destruct (first_at_present _ _ Ho) as [i Hi].
  pose proof Hi as [(y & Hy & Hvy) Hbefore].
  pose proof (lookup_lt_Some _ _ _ Hy) as Hlt.
  set (x := {| oid := next_id w; value := n |}).
  eexists. eexists. split; [by apply (edit_phone_run self r o n i w)|].
  cbn [records]. rewrite lookup_insert_eq. split; [done|]. cbn [phones].
  fold x. split; [by apply length_insert|].
  assert (forall q,
            find_phone self q
              {| next_id := S (next_id w);
                 records := <[self := {| name := name r;
                                         phones := <[i := x]> (phones r) |}]>
                              (records w);
                 books := books w |}
            = (Ok (find_phone_in (<[i := x]> (phones r)) q),
               {| next_id := S (next_id w);
                  records := <[self := {| name := name r;
                                          phones := <[i := x]> (phones r) |}]>
                               (records w);
                  books := books w |})) as Hfind.
  { intros q.
    apply (find_phone_live self q _
             {| name := name r; phones := <[i := x]> (phones r) |}).
    cbn. by rewrite lookup_insert_eq. }
  split; [|split].
  - intros <-. rewrite list_fmap_insert. cbn.
    apply list_insert_id. by rewrite list_lookup_fmap, Hy, <- Hvy.
  - intros Hne.
    pose proof (occurrences_insert o _ i x y Hy) as Hocc_o.
    pose proof (occurrences_insert n _ i x y Hy) as Hocc_n.
    cbn [value x] in Hocc_o, Hocc_n.
    rewrite decide_True, decide_False in Hocc_o by congruence.
    rewrite decide_False, decide_True in Hocc_n by congruence.
    split; [lia|]. split; [lia|]. split.
    + intros q Hqo Hqn. pose proof (occurrences_insert q _ i x y Hy) as Hq.
      cbn [value x] in Hq. rewrite !decide_False in Hq by congruence. lia.
    + rewrite Hfind. split.
      * intros [= Hnone]. apply occurrences_zero in Hnone. lia.
      * intros Hone. f_equal. f_equal. apply occurrences_zero. lia.
  - destruct (find_phone_in_present (<[i := x]> (phones r)) n) as [z Hz].
    { exists x. split; [|done]. eapply list_elem_of_lookup_2.
      by apply list_lookup_insert_eq. }
    exists z. rewrite Hfind, Hz. split; [done|].
    by apply find_phone_in_elem in Hz as [_ Hz].
Qed.

(** X7: in a store a program reaches, [remove_phone(p)] removes one
    phone of value [p] and no more: afterwards the record has one phone of
    value [p] fewer (none fewer when there was none), as many of every
    other value, and [find_phone(p)] still finds a phone exactly when [p]
    occurred more than once. *)
Theorem remove_phone_counts
    (self : nat) (r : RecordObj) (p : str) (w : World) :
  reachable w ->
  records w !! self = Some r ->
  exists (w' : World) (r' : RecordObj),
    remove_phone self p w = (Ok tt, w') /\
    records w' !! self = Some r' /\
    name r' = name r /\
    occurrences p (phones r') = Nat.pred (occurrences p (phones r)) /\
    (forall q, q <> p ->
       occurrences q (phones r') = occurrences q (phones r)) /\
    (length (phones r') + Nat.min 1 (occurrences p (phones r))
     = length (phones r))%nat /\
    (find_phone self p w' = (Ok None, w') <->
     (occurrences p (phones r) <= 1)%nat).
Proof.
  intros Hw Hr.
  destruct (reachable_invariants w Hw) as (_ & _ & Hc & _).
  specialize (Hc _ _ Hr).
  destruct (find_phone_in (phones r) p) as [y|] eqn:Hfind.
  - apply find_phone_in_Some in Hfind as (i & Hy & Hi).
    pose proof Hi as [(y' & Hy' & Hvy) _]. simplify_eq.
    pose proof (occurrences_delete (value y) _ i y Hy) as Hocc.
    rewrite decide_True in Hocc by done.
    eexists. eexists. split; [by apply (remove_phone_run self r _ i w)|].
    cbn [records]. rewrite lookup_insert_eq. split; [done|]. cbn [phones name].
    split; [done|]. split; [lia|]. split; [|split].
    + intros q Hq. pose proof (occurrences_delete q _ i y Hy) as Hoq.
      rewrite decide_False in Hoq by congruence. lia.
    + rewrite length_delete by eauto.
      pose proof (lookup_lt_Some _ _ _ Hy). lia.
    + erewrite find_phone_live; [|cbn; apply lookup_insert_eq]. cbn [phones].
      split.
      * intros [= Hnone]. apply occurrences_zero in Hnone. lia.
      * intros Hle. f_equal. f_equal. apply occurrences_zero. lia.
  - pose proof Hfind as Hzero. apply occurrences_zero in Hzero.
    exists w, r. split; [by apply (remove_phone_absent self r)|].
    split; [done|]. split; [done|]. rewrite Hzero. split; [done|].
    split; [done|]. split; [cbn; lia|].
    rewrite (find_phone_live _ _ _ _ Hr), Hfind. split; [lia|done].
Qed.

(** X8: in a store a program reaches no record holds a string that is
    not a valid phone: for such a string [find_phone] returns [None],
    [remove_phone] returns and changes nothing, and [edit_phone] raises
    the not-found ValueError, whatever the new number, and changes
    nothing. *)
Theorem invalid_phone_is_absent
    (self : nat) (r : RecordObj) (p n : str) (w : World) :
  reachable w ->
  records w !! self = Some r ->
  ~ ten_digits p ->
  find_phone self p w = (Ok None, w) /\
  remove_phone self p w = (Ok tt, w) /\
  edit_phone self p n w =
    (Raise (ValueError (not_found_message p (value (name r)))), w).
Proof.
  intros Hw Hr Hp. apply _is_valid_false in Hp.
  assert (find_phone_in (phones r) p = None) as Hnone.
  { destruct (find_phone_in (phones r) p) as [y|] eqn:Hfind; [|done].
    apply find_phone_in_elem in Hfind.
    rewrite (reachable_present_valid self r p w Hw Hr) in Hp; [done|eauto]. }
  split; [by rewrite (find_phone_live _ _ _ _ Hr), Hnone|].
  split; [by apply (remove_phone_absent self r)|by apply edit_phone_absent].
Qed.

(** ** Books *)

Lemma add_record_run
    (self record : nat) (bk : AddressBook) (r : RecordObj) (w : World) :
  books w !! self = Some bk -> records w !! record = Some r ->
  add_record self record w =
    (Ok tt,
     {| next_id := next_id w;
        records := records w;
        books := <[self := {| data := <[value (name r) := record]> (data bk) |}]>
                   (books w) |}).
Proof.
  intros Hb Hr. unfold add_record, bind, get_book, get_record.
  by rewrite Hb, Hr.
Qed.

Lemma delete_present
    (self : nat) (bk : AddressBook) (n : str) (w : World) :
  books w !! self = Some bk -> is_Some (data bk !! n) ->
  delete self n w =
    (Ok tt,
     {| next_id := next_id w;
        records := records w;
        books := <[self := {| data := base.delete n (data bk) |}]> (books w) |}).
Proof.
  intros Hb Hn. unfold delete, bind, get_book. rewrite Hb.
  by rewrite bool_decide_eq_true_2.
Qed.

Lemma delete_absent (self : nat) (bk : AddressBook) (n : str) (w : World) :
  books w !! self = Some bk -> data bk !! n = None ->
  delete self n w = (Ok tt, w).
Proof.
  intros Hb Hn. unfold delete, bind, get_book. rewrite Hb.
  rewrite bool_decide_eq_false_2; [done|]. rewrite Hn. by intros [? ?].
Qed.

Lemma find_live (self : nat) (bk : AddressBook) (n : str) (w : World) :
  books w !! self = Some bk -> find self n w = (Ok (data bk !! n), w).
Proof.
  intros Hb. unfold find, bind, get_book. by rewrite Hb.
Qed.

(** X9: in a store a program reaches, [AddressBook()] returns a
    reference that was neither a book nor a record, of a book without
    entries: [find] returns [None] for every name and [delete] of every
    name returns without a change; every book there was is as before,
    and so is every record. *)
Theorem AddressBook_init_empty (w : World) :
  reachable w ->
  exists w',
    AddressBook_init w = (Ok (next_id w), w') /\
    books w !! next_id w = None /\
    records w !! next_id w = None /\
    (forall n, find (next_id w) n w' = (Ok None, w')) /\
    (forall n, delete (next_id w) n w' = (Ok tt, w')) /\
    (forall other bk,
       books w !! other = Some bk -> books w' !! other = Some bk) /\
    records w' = records w.
Proof.
  intros Hw. destruct (reachable_fresh w Hw) as [Hr Hb].
  eexists. split; [reflexivity|]. split; [done|]. split; [done|].
  split; [|split; [|split; [|done]]].
  - intros n. erewrite find_live; [|cbn; apply lookup_insert_eq].
    cbn. by rewrite lookup_empty.
  - intros n. eapply delete_absent; [cbn; apply lookup_insert_eq|].
    cbn. by rewrite lookup_empty.
  - intros other bk Ho. cbn. rewrite lookup_insert_ne; [done|]. congruence.
Qed.

(** X10: for a live book and a live record, [add_record(record)] and
    then [delete] of the name of the record both return and leave the
    book without an entry for that name: its mapping is the one before
    without that key, so a record filed under the name before is gone
    too, [find] of the name returns [None], and when the name was not a
    key before every book is as before. No record changes. *)
Theorem add_record_then_delete
    (self record : nat) (bk : AddressBook) (r : RecordObj) (w : World) :
  books w !! self = Some bk ->
  records w !! record = Some r ->
  exists w1 w2,
    add_record self record w = (Ok tt, w1) /\
    delete self (value (name r)) w1 = (Ok tt, w2) /\
    books w2 !! self =
      Some {| data := base.delete (value (name r)) (data bk) |} /\
    find self (value (name r)) w2 = (Ok None, w2) /\
    (data bk !! value (name r) = None -> books w2 = books w) /\
    records w2 = records w.
Proof.
  intros Hb Hr. eexists. eexists.
  split; [by apply add_record_run|].
  split.
  { eapply delete_present; [cbn; apply lookup_insert_eq|].
    cbn. rewrite lookup_insert_eq. by eexists. }
  cbn [books data records]. rewrite insert_insert_eq, delete_insert_eq.
  split; [by rewrite lookup_insert_eq|]. split; [|split; [|done]].
  - erewrite find_live; [|cbn; apply lookup_insert_eq].
    cbn. by rewrite lookup_delete_eq.
  - intros Hnone. rewrite delete_id by done. apply insert_id.
    by destruct bk.
Qed.

(** X11: [delete] is idempotent: a second [delete] of the same name from
    the same book has the outcome of the first and leaves the store as
    the first left it. *)
Theorem delete_idempotent (self : nat) (n : str) (w : World) :
  delete self n (delete self n w).2 = delete self n w.
Proof.
  destruct (books w !! self) as [bk|] eqn:Hb.
  - destruct (data bk !! n) as [ref|] eqn:Hn.
    + rewrite (delete_present self bk n w Hb) by (rewrite Hn; by eexists).
      cbn [snd]. erewrite delete_absent; [done|cbn; apply lookup_insert_eq|].
      cbn. apply lookup_delete_eq.
    + rewrite (delete_absent self bk n w Hb Hn). cbn [snd].
      by apply (delete_absent self bk).
  - unfold delete, bind, get_book. rewrite Hb. cbn. by rewrite Hb.
Qed.

(** X12: in a store a program reaches, [delete(n)] of a name the book
    holds and then [add_record] of the record that was filed under it
    both return and give back the book as a mapping: every book binds the
    names it bound before to the records it bound them to, and no record
    changes. *)
Theorem delete_then_add_record
    (self : nat) (bk : AddressBook) (n : str) (ref : nat) (w : World) :
  reachable w ->
  books w !! self = Some bk ->
  data bk !! n = Some ref ->
  exists w1 w2,
    delete self n w = (Ok tt, w1) /\
    add_record self ref w1 = (Ok tt, w2) /\
    books w2 = books w /\
    records w2 = records w.
Proof.
  intros Hw Hb Hn. destruct (reachable_invariants w Hw) as (_ & _ & _ & Hk).
  destruct (Hk _ _ _ _ Hb Hn) as (r & Hr & Hname).
  eexists. eexists.
  split; [apply (delete_present self bk n w Hb); by eexists|].
  split.
  { eapply add_record_run; [cbn; apply lookup_insert_eq|exact Hr]. }
  cbn [books data records]. split; [|done].
  rewrite insert_insert_eq, Hname, insert_delete_eq, (insert_id (data bk)) by done.
  apply insert_id. by destruct bk.
Qed.

(** X13: a book holds the record itself, not a copy: after
    [add_record(record)], a phone added to the record is seen through the
    book. [find] of the name returns the same reference, and the record
    it refers to holds the new phone at the end of its list. *)
Theorem book_shares_record
    (self record : nat) (bk : AddressBook) (r : RecordObj) (p : str)
    (w : World) :
  books w !! self = Some bk ->
  records w !! record = Some r ->
  ten_digits p ->
  exists w1 w2,
    add_record self record w = (Ok tt, w1) /\
    add_phone record p w1 = (Ok tt, w2) /\
    find self (value (name r)) w2 = (Ok (Some record), w2) /\
    records w2 !! record =
      Some {| name := name r;
              phones := phones r ++ [{| oid := next_id w; value := p |}] |} /\
    exists ph, find_phone record p w2 = (Ok (Some ph), w2) /\ value ph = p.
Proof.
  intros Hb Hr Hp. apply _is_valid_spec in Hp. eexists. eexists.
  split; [by apply add_record_run|].
  split; [by apply (add_phone_run record r)|].
  split; [|split].
  - erewrite find_live; [|cbn; apply lookup_insert_eq].
    cbn. by rewrite lookup_insert_eq.
  - cbn. by rewrite lookup_insert_eq.
  - set (l := phones r ++ [{| oid := next_id w; value := p |}]).
    destruct (find_phone_in_present l p) as [x Hx].
    { eexists. split; [apply elem_of_app; right; by left|done]. }
    exists x. erewrite find_phone_live; [|cbn; apply lookup_insert_eq].
    cbn [phones]. fold l. rewrite Hx. split; [done|].
    by apply find_phone_in_elem in Hx as [_ Hx].
Qed.

(** ** Validation of ASCII strings *)

(** X14: when the digits of the table below U+0080 are the ASCII digits,
    as they are in Unicode, then for every string of ASCII characters
    [Phone] is constructed if and only if the string consists of exactly
    ten ASCII digits, and raises the ValueError of an invalid format
    otherwise. *)
Theorem Phone_init_ascii_str (s : str) (w : World) :
  (forall c, c < 128 -> isdigit_char c = ascii_digit c) ->
  ascii_str s ->
  ((exists ph w', Phone_init s w = (Ok ph, w') /\ value ph = s)
   <-> ascii_ten_digits s) /\
  (Phone_init s w = (Raise (ValueError invalid_format_message), w)
   <-> ~ ascii_ten_digits s).
Proof.
  intros Htable Hs.
  assert (ten_digits s <-> ascii_ten_digits s) as Hiff.
  { unfold ascii_ten_digits, ten_digits, ascii_str in *.
    rewrite !Forall_forall in *.
    split; intros [Hd Hlen]; (split; [|done]); intros c Hc.
    - rewrite <- Htable by auto. auto.
    - rewrite Htable by auto. auto. }
  rewrite <- Hiff. destruct (_is_valid s) eqn:Hv.
  - rewrite (Phone_init_valid s w Hv). apply _is_valid_spec in Hv.
    split; split; try done. intros _. by eexists _, _.
  - rewrite (Phone_init_invalid s w Hv). apply _is_valid_false in Hv.
    split; split; try done. by intros (ph & w' & ? & _).
Qed.

(** ** Describing a record after a call *)

Lemma join_snoc (sep x : str) (l : list str) :
  l <> [] -> join sep (l ++ [x]) = join sep l ++ sep ++ x.
Proof.
  induction l as [|y l IH]; [done|]. intros _. destruct l as [|z l].
  - done.
  - change (join sep ((y :: z :: l) ++ [x]))
      with (y ++ sep ++ join sep ((z :: l) ++ [x])).
    rewrite IH by done.
    change (join sep (y :: z :: l)) with (y ++ sep ++ join sep (z :: l)).
    by rewrite <- !app_assoc.
Qed.

Lemma render_snoc (nm x : Field) (l : list Field) :
  render {| name := nm; phones := l ++ [x] |} =
    match l with
    | [] => lit "Contact name: " ++ value nm ++ lit ", phones: " ++ value x
    | _ => render {| name := nm; phones := l |} ++ lit "; " ++ value x
    end.
Proof.
  destruct l as [|y l]; [done|]. unfold render. cbn [name phones].
  change ((y :: l) ++ [x]) with (y :: (l ++ [x])). cbv iota.
  change (y :: (l ++ [x])) with ((y :: l) ++ [x]).
  rewrite map_app. cbn [map]. rewrite join_snoc by done.
  by rewrite <- !app_assoc.
Qed.

Lemma Record_str_live (self : nat) (r : RecordObj) (w : World) :
  records w !! self = Some r -> Record_str self w = (Ok (render r), w).
Proof.
  intros Hr. unfold Record_str, bind, get_record. by rewrite Hr.
Qed.

(** X15: after [add_phone(p)] with a valid [p], [__str__] of the record
    is the text it was before followed by "; " and [p], or, for a record
    that had no phones, the name part followed by [p] in place of the
    phrase for no phones. *)
Theorem Record_str_after_add_phone
    (self : nat) (r : RecordObj) (p : str) (w : World) :
  records w !! self = Some r ->
  ten_digits p ->
  exists (text : str) (w' : World),
    Record_str self w = (Ok text, w) /\
    add_phone self p w = (Ok tt, w') /\
    Record_str self w' =
      (Ok match phones r with
          | [] => lit "Contact name: " ++ value (name r) ++ lit ", phones: "
                    ++ p
          | _ => text ++ lit "; " ++ p
          end, w').
Proof.
  intros Hr Hp. apply _is_valid_spec in Hp.
  exists (render r). eexists.
  split; [by apply Record_str_live|].
  split; [by apply add_phone_run|].
  erewrite Record_str_live; [|cbn; apply lookup_insert_eq].
  rewrite render_snoc. cbn [value]. destruct r as [nm l]. cbn [name phones].
  by destruct l.
Qed.

End Properties.

(** ** The program on concrete strings *)

Lemma unicode_digit_ascii (c : N) :
  ascii_digit c = true -> unicode_digit c = true.
Proof.
  intros H. unfold unicode_digit. cbn [existsb]. unfold inside at 1. cbn.
  unfold ascii_digit in H. by rewrite H.
Qed.

Lemma john_world_record : records john_world !! 0%nat = Some john.
Proof. by vm_compute. Qed.

Lemma john_world_book : books john_world !! 4%nat = Some john_book.
Proof. by vm_compute. Qed.

Lemma run_calls_reachable (cs : list call) (w : World) :
  reachable unicode_digit w -> reachable unicode_digit (run_calls cs w).
Proof.
  revert w. induction cs as [|c cs IH]; intros w Hw; [done|].
  cbn. apply IH. by apply reachable_step.
Qed.

Lemma john_world_reachable : reachable unicode_digit john_world.
Proof. apply run_calls_reachable, reachable_init. Qed.

Lemma john_coherent : coherent (phones john).
Proof.
  apply NoDup_oid_coherent. apply (bool_decide_unpack _). by vm_compute.
Qed.

(** In a list of the model where one identity has two values, which no
    Python list is, the search by identity stops before the search by
    value: hence the hypothesis [coherent] of the theorems on positions. *)
Example list_index_incoherent :
  let a := {| oid := 1; value := lit "1234567890" |} in
  let b := {| oid := 1; value := lit "5555555555" |} in
  find_phone_in [a; b] (lit "5555555555") = Some b /\
  list_index b [a; b] = Some 0%nat.
Proof. by vm_compute. Qed.

(** The scenarios of the specification. *)

Example scenario_edit_then_describe :
  (edit_phone unicode_digit 0 (lit "1234567890") (lit "1112223333") ;;;
   Record_str 0) john_world
  = (Ok (lit "Contact name: John, phones: 1112223333; 5555555555"),
     (edit_phone unicode_digit 0 (lit "1234567890") (lit "1112223333")
        john_world).2).
Proof. by vm_compute. Qed.

Example scenario_delete_then_find :
  (jane <- Record_init (lit "Jane") ;;
   add_phone unicode_digit jane (lit "9876543210") ;;;
   book <- AddressBook_init ;;
   add_record book jane ;;;
   delete book (lit "Jane") ;;;
   find book (lit "Jane")) init_world
  = (Ok None,
     {| next_id := 4;
        records :=
          {[ 0%nat := {| name := {| oid := 1; value := lit "Jane" |};
                         phones := [ {| oid := 2;
                                        value := lit "9876543210" |} ] |} ]};
        books := {[ 3%nat := {| data := ∅ |} ]} |}).
Proof. by vm_compute. Qed.

Example scenario_short_phone :
  (r <- Record_init (lit "John") ;;
   add_phone unicode_digit r (lit "123")) init_world
  = (Raise (ValueError invalid_format_message),
     {| next_id := 2;
        records := {[ 0%nat := {| name := {| oid := 1; value := lit "John" |};
                                  phones := [] |} ]};
        books := ∅ |}).
Proof. by vm_compute. Qed.

Example scenario_no_phones :
  (r <- Record_init (lit "John") ;; Record_str r) init_world
  = (Ok (lit "Contact name: John, phones: немає номерів"),
     {| next_id := 2;
        records := {[ 0%nat := {| name := {| oid := 1; value := lit "John" |};
                                  phones := [] |} ]};
        books := ∅ |}).
Proof. by vm_compute. Qed.

(** With a duplicate of the old number, only the first one is replaced. *)
Example edit_phone_duplicate :
  phones <$>
    records
      (run_calls [ MkRecord (lit "John");
                   AddPhone 0 (lit "5555555555");
                   AddPhone 0 (lit "1234567890");
                   AddPhone 0 (lit "5555555555");
                   EditPhone 0 (lit "5555555555") (lit "1112223333") ]
         init_world) !! 0%nat
  = Some [ {| oid := 5; value := lit "1112223333" |};
           {| oid := 3; value := lit "1234567890" |};
           {| oid := 4; value := lit "5555555555" |} ].
Proof. by vm_compute. Qed.

(** ** The theorems at concrete inputs *)

(** C1 as stated fails: Python's [str.isdigit] accepts digits outside
    ASCII, so [Phone] accepts ten ARABIC-INDIC DIGITs, a string with no
    ASCII digit in it. *)
Lemma Phone_init_accepts_arabic_indic :
  Phone_init unicode_digit arabic_indic_phone init_world =
    (Ok {| oid := 0; value := arabic_indic_phone |},
     {| next_id := 1; records := ∅; books := ∅ |}) /\
  length arabic_indic_phone = 10%nat /\
  ~ ascii_ten_digits arabic_indic_phone.
Proof.
  split; [by vm_compute|]. split; [done|].
  intros [H _]. apply Forall_inv in H. by vm_compute in H.
Qed.

Lemma edit_phone_invalid_new_witness :
  edit_phone unicode_digit 0 (lit "1234567890") (lit "123") john_world =
    (Raise (ValueError invalid_format_message), john_world) /\
  phones <$>
    records
      (edit_phone unicode_digit 0 (lit "1234567890") (lit "123") john_world).2
      !! 0%nat =
    Some (phones john).
Proof.
  apply (edit_phone_invalid_new unicode_digit 0 john).
  - exact john_world_record.
  - exists {| oid := 2; value := lit "1234567890" |}.
    split; [left|reflexivity].
  - apply _is_valid_false. by vm_compute.
Defined.

Lemma edit_phone_not_found_witness :
  exists msg,
    edit_phone unicode_digit 0 (lit "0000000000") (lit "1112223333") john_world
      = (Raise (ValueError msg), john_world) /\
    contains msg (lit "0000000000") /\
    contains msg (value (name john)) /\
    msg <> invalid_format_message /\
    phones <$>
      records
        (edit_phone unicode_digit 0 (lit "0000000000") (lit "1112223333")
           john_world).2 !! 0%nat =
      Some (phones john).
Proof.
  apply (edit_phone_not_found unicode_digit 0 john).
  - exact john_world_record.
  - apply find_phone_in_None. by vm_compute.
Defined.

Lemma edit_phone_replaces_first_witness :
  exists (i : nat) (new_phone_obj : Field) (w' : World) (l' : list Field),
    edit_phone unicode_digit 0 (lit "1234567890") (lit "1112223333") john_world
      = (Ok tt, w') /\
    first_at (phones john) (lit "1234567890") i /\
    value new_phone_obj = lit "1112223333" /\
    records w' !! 0%nat = Some {| name := name john; phones := l' |} /\
    l' !! i = Some new_phone_obj /\
    length l' = length (phones john) /\
    forall j, j <> i -> l' !! j = phones john !! j.
Proof.
  apply (edit_phone_replaces_first unicode_digit 0 john).
  - exact john_world_record.
  - exact john_coherent.
  - exists {| oid := 2; value := lit "1234567890" |}.
    split; [left|reflexivity].
  - apply _is_valid_spec. by vm_compute.
Defined.

Lemma add_phone_then_find_phone_witness :
  let w := john_world in
  let p := lit "9876543210" in
  let w' := (add_phone unicode_digit 0 p w).2 in
  let raw := lit "5555555555" in
  (exists r ph,
     records w !! 0%nat = Some r /\ value ph = p /\
     records w' !! 0%nat =
       Some {| name := name r; phones := phones r ++ [ph] |}) /\
  (exists ph, find_phone 0 p w' = (Ok (Some ph), w') /\ value ph = p) /\
  (forall ph,
     find_phone 0 raw w = (Ok (Some ph), w) <->
     exists i, phones john !! i = Some ph /\ first_at (phones john) raw i) /\
  (find_phone 0 raw w = (Ok None, w) <->
   forall ph, ph ∈ phones john -> value ph <> raw).
Proof.
  cbv zeta.
  apply (add_phone_then_find_phone unicode_digit 0 (lit "9876543210")
           john_world _ 0 john (lit "5555555555") john_world).
  - by vm_compute.
  - exact john_world_record.
Defined.

Lemma deleting_is_total_witness :
  let w := john_world in
  let p := lit "1234567890" in
  let key := lit "John" in
  (exists w',
     remove_phone 0 p w = (Ok tt, w') /\
     ((forall ph, ph ∈ phones john -> value ph <> p) -> w' = w) /\
     (coherent (phones john) ->
      forall i, first_at (phones john) p i ->
        records w' !! 0%nat =
          Some {| name := name john;
                  phones := base.delete i (phones john) |})) /\
  (exists w0',
     delete 4 key w = (Ok tt, w0') /\
     (data john_book !! key = None -> w0' = w) /\
     (is_Some (data john_book !! key) ->
      books w0' !! 4%nat =
        Some {| data := base.delete key (data john_book) |} /\
      find 4 key w0' = (Ok None, w0'))).
Proof.
  cbv zeta.
  apply (deleting_is_total 0 john (lit "1234567890") john_world
           4 john_book (lit "John") john_world).
  - exact john_world_record.
  - exact john_world_book.
Defined.

Lemma add_record_keys_are_names_witness :
  keys_are_names john_world /\
  exists w',
    add_record 4 0 john_world = (Ok tt, w') /\
    books w' !! 4%nat =
      Some {| data := <[value (name john) := 0%nat]> (data john_book) |} /\
    records w' = records john_world /\
    find 4 (value (name john)) w' = (Ok (Some 0%nat), w').
Proof.
  apply (add_record_keys_are_names unicode_digit john_world 4 0 john_book john
           john_world).
  - exact john_world_reachable.
  - exact john_world_book.
  - exact john_world_record.
Defined.

(** C8 as stated fails: a name is any string, and [__str__] of
    [Record("J\nD")], without phones, has a line feed in it. *)
Lemma Record_str_two_lines :
  reachable unicode_digit two_line_world /\
  exists text,
    Record_str 0 two_line_world = (Ok text, two_line_world) /\
    line_break 10 /\ 10 ∈ text.
Proof.
  split; [apply run_calls_reachable, reachable_init|].
  eexists. split; [by vm_compute|].
  split; apply (bool_decide_unpack _); by vm_compute.
Qed.

Lemma Record_str_format_witness :
  exists body text,
    text = lit "Contact name: " ++ value (name john) ++ lit ", phones: "
             ++ body /\
    Record_str 0 john_world = (Ok text, john_world) /\
    (phones john = [] ->
     body = no_phones /\ body <> join (lit "; ") (map value (phones john))) /\
    (forall first others, phones john = first :: others ->
       body = fold_left (fun acc v => acc ++ lit "; " ++ v)
                (map value others) (value first)) /\
    (forall c,
       c ∈ text ->
       c ∈ value (name john) \/
       (exists ph, ph ∈ phones john /\ c ∈ value ph) \/
       (c ∈ fixed_text /\ ~ line_break c)) /\
    (forall c,
       c ∈ value (name john) \/
       (exists ph, ph ∈ phones john /\ c ∈ value ph) ->
       c ∈ text) /\
    ((exists c, line_break c /\ c ∈ text) <->
     (exists c, line_break c /\
        (c ∈ value (name john) \/
         exists ph, ph ∈ phones john /\ c ∈ value ph))).
Proof.
  apply (Record_str_format 0 john john_world). exact john_world_record.
Defined.

Lemma phones_always_valid_witness :
  Forall (fun ph => ten_digits unicode_digit (value ph)) (phones john) /\
  forall c, phones_valid unicode_digit (exec unicode_digit c john_world).
Proof.
  apply (phones_always_valid unicode_digit john_world 0 john).
  - exact john_world_reachable.
  - exact john_world_record.
Defined.

Lemma frame_properties_witness :
  let w := john_world in
  let p := lit "9876543210" in
  let old_phone := lit "1234567890" in
  let new_phone := lit "1112223333" in
  let n := lit "John" in
  let key := lit "Jane" in
  (forall w',
     w' ∈ [ (add_phone unicode_digit 0 p w).2; (remove_phone 0 p w).2;
            (edit_phone unicode_digit 0 old_phone new_phone w).2 ] ->
     (forall other, name_of w' other = name_of w other) /\
     (forall other, other <> 0%nat ->
        records w' !! other = records w !! other) /\
     books w' = books w) /\
  (forall b, entry (add_record 4 0 w).2 b key = entry w b key) /\
  records (add_record 4 0 w).2 = records w /\
  (forall b, entry (delete 4 n w).2 b key = entry w b key) /\
  records (delete 4 n w).2 = records w.
Proof.
  cbv zeta.
  apply (frame_properties unicode_digit 0 (lit "9876543210")
           (lit "1234567890") (lit "1112223333") john_world
           4 0 (lit "John") (lit "Jane") john_world).
  - intros H. by vm_compute in H.
  - intros H. by vm_compute in H.
Defined.

(** ** Further theorems at concrete inputs *)

Lemma inside_above (lo hi c : N) : c < lo -> inside lo hi c = false.
Proof.
  intros H. unfold inside. apply andb_false_iff. left. by apply N.leb_gt.
Qed.

(** Below U+0080 the digits of [unicode_digit] are the ASCII digits. *)
Lemma unicode_digit_below_128 (c : N) :
  c < 128 -> unicode_digit c = ascii_digit c.
Proof.
  intros H. unfold unicode_digit. cbn [existsb fst snd].
  repeat match goal with
         | |- context [inside ?lo ?hi c] =>
             rewrite (inside_above lo hi c) by lia
         end.
  unfold inside, ascii_digit. by rewrite !orb_false_r.
Qed.

Lemma Record_init_fresh_witness :
  exists w',
    Record_init [] john_world = (Ok (next_id john_world), w') /\
    records john_world !! next_id john_world = None /\
    books john_world !! next_id john_world = None /\
    records w' !! next_id john_world =
      Some {| name := {| oid := S (next_id john_world); value := [] |};
              phones := [] |} /\
    (forall other r,
       records john_world !! other = Some r -> records w' !! other = Some r) /\
    books w' = books john_world /\
    Record_str (next_id john_world) w' =
      (Ok (lit "Contact name: " ++ [] ++ lit ", phones: " ++ no_phones), w').
Proof.
  apply (Record_init_fresh unicode_digit [] john_world).
  exact john_world_reachable.
Defined.

Lemma add_phone_raises_iff_invalid_witness :
  (add_phone unicode_digit 0 (lit "+380501234567") john_world =
     (Raise (ValueError invalid_format_message), john_world)
   <-> ~ ten_digits unicode_digit (lit "+380501234567")) /\
  ((exists w', add_phone unicode_digit 0 (lit "+380501234567") john_world
               = (Ok tt, w'))
   <-> ten_digits unicode_digit (lit "+380501234567")).
Proof.
  apply (add_phone_raises_iff_invalid unicode_digit 0 john).
  exact john_world_record.
Defined.

Lemma add_phone_counts_witness :
  exists w' r',
    add_phone unicode_digit 0 (lit "5555555555") john_world = (Ok tt, w') /\
    records w' !! 0%nat = Some r' /\
    name r' = name john /\
    length (phones r') = S (length (phones john)) /\
    occurrences (lit "5555555555") (phones r') =
      S (occurrences (lit "5555555555") (phones john)) /\
    forall q, q <> lit "5555555555" ->
      occurrences q (phones r') = occurrences q (phones john).
Proof.
  apply (add_phone_counts unicode_digit 0 john).
  - exact john_world_record.
  - apply _is_valid_spec. by vm_compute.
Defined.

Lemma add_phone_then_remove_phone_witness :
  exists w1 w2,
    add_phone unicode_digit 0 (lit "9876543210") john_world = (Ok tt, w1) /\
    remove_phone 0 (lit "9876543210") w1 = (Ok tt, w2) /\
    records w2 = records john_world.
Proof.
  destruct (add_phone_then_remove_phone unicode_digit 0 john
              (lit "9876543210") john_world)
    as (w1 & w2 & ph & l2 & Hadd & Hremove & _ & _ & Habsent & _).
  - exact john_world_reachable.
  - exact john_world_record.
  - apply _is_valid_spec. by vm_compute.
  - exists w1, w2. split; [exact Hadd|]. split; [exact Hremove|].
    apply Habsent. apply find_phone_in_None. by vm_compute.
Defined.

Lemma edit_phone_and_back_witness :
  exists (w1 w2 : World) (r2 : RecordObj),
    edit_phone unicode_digit 0 (lit "1234567890") (lit "1112223333")
      john_world = (Ok tt, w1) /\
    edit_phone unicode_digit 0 (lit "1112223333") (lit "1234567890") w1
      = (Ok tt, w2) /\
    records w2 !! 0%nat = Some r2 /\
    name r2 = name john /\
    value <$> phones r2 = value <$> phones john /\
    (Record_str 0 w2).1 = (Record_str 0 john_world).1.
Proof.
  apply (edit_phone_and_back unicode_digit 0 john).
  - exact john_world_reachable.
  - exact john_world_record.
  - exists {| oid := 2; value := lit "1234567890" |}.
    split; [left|reflexivity].
  - apply _is_valid_spec. by vm_compute.
  - apply find_phone_in_None. by vm_compute.
Defined.

Lemma edit_phone_counts_witness :
  exists (w' : World) (r' : RecordObj),
    edit_phone unicode_digit 0 (lit "1234567890") (lit "5555555555")
      john_world = (Ok tt, w') /\
    records w' !! 0%nat = Some r' /\
    length (phones r') = length (phones john) /\
    occurrences (lit "5555555555") (phones r') = 2%nat /\
    find_phone 0 (lit "1234567890") w' = (Ok None, w').
Proof.
  destruct (edit_phone_counts unicode_digit 0 john
              (lit "1234567890") (lit "5555555555") john_world)
    as (w' & r' & Hedit & Hr' & Hlen & _ & Hne & _).
  - exact john_world_reachable.
  - exact john_world_record.
  - exists {| oid := 2; value := lit "1234567890" |}.
    split; [left|reflexivity].
  - apply _is_valid_spec. by vm_compute.
  - destruct Hne as (_ & Hnew & _ & Hfind); [by vm_compute|].
    exists w', r'. split; [exact Hedit|]. split; [exact Hr'|].
    split; [exact Hlen|]. split; [by rewrite Hnew|].
    apply Hfind. by vm_compute.
Defined.

Lemma remove_phone_counts_witness :
  exists (w' : World) (r' : RecordObj),
    remove_phone 0 (lit "1234567890") john_world = (Ok tt, w') /\
    records w' !! 0%nat = Some r' /\
    name r' = name john /\
    occurrences (lit "1234567890") (phones r') =
      Nat.pred (occurrences (lit "1234567890") (phones john)) /\
    (forall q, q <> lit "1234567890" ->
       occurrences q (phones r') = occurrences q (phones john)) /\
    (length (phones r')
     + Nat.min 1 (occurrences (lit "1234567890") (phones john))
     = length (phones john))%nat /\
    (find_phone 0 (lit "1234567890") w' = (Ok None, w') <->
     (occurrences (lit "1234567890") (phones john) <= 1)%nat).
Proof.
  apply (remove_phone_counts unicode_digit 0 john).
  - exact john_world_reachable.
  - exact john_world_record.
Defined.

Lemma invalid_phone_is_absent_witness :
  find_phone 0 (lit "123") john_world = (Ok None, john_world) /\
  remove_phone 0 (lit "123") john_world = (Ok tt, john_world) /\
  edit_phone unicode_digit 0 (lit "123") (lit "1112223333") john_world =
    (Raise (ValueError (not_found_message (lit "123") (value (name john)))),
     john_world).
Proof.
  apply (invalid_phone_is_absent unicode_digit 0 john).
  - exact john_world_reachable.
  - exact john_world_record.
  - apply _is_valid_false. by vm_compute.
Defined.

Lemma AddressBook_init_empty_witness :
  exists w',
    AddressBook_init john_world = (Ok (next_id john_world), w') /\
    books john_world !! next_id john_world = None /\
    records john_world !! next_id john_world = None /\
    (forall n, find (next_id john_world) n w' = (Ok None, w')) /\
    (forall n, delete (next_id john_world) n w' = (Ok tt, w')) /\
    (forall other bk,
       books john_world !! other = Some bk -> books w' !! other = Some bk) /\
    records w' = records john_world.
Proof.
  apply (AddressBook_init_empty unicode_digit john_world).
  exact john_world_reachable.
Defined.

Lemma add_record_then_delete_witness :
  exists w1 w2,
    add_record 4 0 john_world = (Ok tt, w1) /\
    delete 4 (value (name john)) w1 = (Ok tt, w2) /\
    books w2 !! 4%nat =
      Some {| data := base.delete (value (name john)) (data john_book) |} /\
    find 4 (value (name john)) w2 = (Ok None, w2) /\
    (data john_book !! value (name john) = None ->
     books w2 = books john_world) /\
    records w2 = records john_world.
Proof.
  apply (add_record_then_delete 4 0 john_book john john_world).
  - exact john_world_book.
  - exact john_world_record.
Defined.

Lemma delete_then_add_record_witness :
  exists w1 w2,
    delete 4 (lit "John") john_world = (Ok tt, w1) /\
    add_record 4 0 w1 = (Ok tt, w2) /\
    books w2 = books john_world /\
    records w2 = records john_world.
Proof.
  apply (delete_then_add_record unicode_digit 4 john_book (lit "John") 0
           john_world).
  - exact john_world_reachable.
  - exact john_world_book.
  - by vm_compute.
Defined.

Lemma book_shares_record_witness :
  exists w1 w2,
    add_record 4 0 john_world = (Ok tt, w1) /\
    add_phone unicode_digit 0 (lit "9876543210") w1 = (Ok tt, w2) /\
    find 4 (value (name john)) w2 = (Ok (Some 0%nat), w2) /\
    records w2 !! 0%nat =
      Some {| name := name john;
              phones := phones john
                          ++ [{| oid := next_id john_world;
                                 value := lit "9876543210" |}] |} /\
    exists ph,
      find_phone 0 (lit "9876543210") w2 = (Ok (Some ph), w2) /\
      value ph = lit "9876543210".
Proof.
  apply (book_shares_record unicode_digit 4 0 john_book john).
  - exact john_world_book.
  - exact john_world_record.
  - apply _is_valid_spec. by vm_compute.
Defined.

Lemma Phone_init_ascii_str_witness :
  ((exists ph w',
      Phone_init unicode_digit (lit "050-123-45") init_world = (Ok ph, w') /\
      value ph = lit "050-123-45")
   <-> ascii_ten_digits (lit "050-123-45")) /\
  (Phone_init unicode_digit (lit "050-123-45") init_world =
     (Raise (ValueError invalid_format_message), init_world)
   <-> ~ ascii_ten_digits (lit "050-123-45")).
Proof.
  apply (Phone_init_ascii_str unicode_digit).
  - exact unicode_digit_below_128.
  - apply (bool_decide_unpack _). by vm_compute.
Defined.

Lemma Record_str_after_add_phone_witness :
  exists (text : str) (w' : World),
    Record_str 0 john_world = (Ok text, john_world) /\
    add_phone unicode_digit 0 (lit "9876543210") john_world = (Ok tt, w') /\
    Record_str 0 w' =
      (Ok match phones john with
          | [] => lit "Contact name: " ++ value (name john)
                    ++ lit ", phones: " ++ lit "9876543210"
          | _ => text ++ lit "; " ++ lit "9876543210"
          end, w').
Proof.
  apply (Record_str_after_add_phone unicode_digit 0 john).
  - exact john_world_record.
  - apply _is_valid_spec. by vm_compute.
Defined.
